(** * Web log processing (assignment3.py): a shallow embedding and its properties

  The program reads a CSV web log, and reports the share of image requests,
  the most popular browser and the hits per hour of the day.

  Text is modelled as a list of code points below 256 ([ascii]); on such
  text the character classes of Python's [str] and [re] are the ones written
  out in [PyStr].  Python integers are [Z]; a float is the rational it
  denotes ([Q]), and the float operations of the program round their exact
  result to the nearest binary64 value, as [Float] writes out. *)

From Stdlib Require Import List Ascii String ZArith NArith QArith Bool Lia.
From Stdlib Require Import Qround Qpower Qabs Qreduction Lqa.
From Stdlib Require Import Permutation Sorted DecimalString.
Import ListNotations.

Open Scope Z_scope.

(* ------------------------------------------------------------------ *)
(** ** Python strings *)

Module PyStr.

Definition str := list ascii.

(** A literal of the source, as text. *)
Definition lit (s : string) : str := list_ascii_of_string s.

Definition code (c : ascii) : N := N_of_ascii c.

Definition in_range (lo hi : N) (c : ascii) : bool :=
  (lo <=? code c)%N && (code c <=? hi)%N.

(** [ch.isdigit()] and the class [\d]: below 256 only [0-9]. *)
Definition is_digit (c : ascii) : bool := in_range 48 57 c.

(** [ch.isspace()] and the class [\s]: tab to carriage return, the four
    separators 0x1c-0x1f, the space, NEL and the no-break space. *)
Definition is_space (c : ascii) : bool :=
  in_range 9 13 c || in_range 28 32 c
  || (code c =? 133)%N || (code c =? 160)%N.

(** The line boundaries of [str.splitlines]. *)
Definition is_linebreak (c : ascii) : bool :=
  in_range 10 13 c || in_range 28 30 c || (code c =? 133)%N.

(** Simple lower-case mapping, as [re.IGNORECASE] applies it. *)
Definition tolower (c : ascii) : ascii :=
  if in_range 65 90 c
     || (in_range 192 222 c && negb (code c =? 215)%N)
  then ascii_of_N (code c + 32) else c.

Definition LF : ascii := "010"%char.
Definition CR : ascii := "013"%char.
Definition DQUOTE : ascii := "034"%char.
Definition COMMA : ascii := ","%char.

(** [s.lstrip()], [s.rstrip()] and [s.strip()] with no argument. *)
Fixpoint lstrip (s : str) : str :=
  match s with
  | c :: s' => if is_space c then lstrip s' else s
  | [] => []
  end.

Definition rstrip (s : str) : str := rev (lstrip (rev s)).

Definition strip (s : str) : str := rstrip (lstrip s).

(** [s.splitlines()]: [cur] holds the current line, reversed.  A carriage
    return directly followed by a line feed is one boundary, and text that
    ends in a boundary has no empty last line. *)
Fixpoint splitlines_from (cur : str) (s : str) : list str :=
  match s with
  | [] => match cur with [] => [] | _ => [rev cur] end
  | c :: s' =>
      if is_linebreak c then
        match s' with
        | c' :: s'' =>
            if Ascii.eqb c CR && Ascii.eqb c' LF
            then rev cur :: splitlines_from [] s''
            else rev cur :: splitlines_from [] s'
        | [] => [rev cur]
        end
      else splitlines_from (c :: cur) s'
  end.

Definition splitlines (s : str) : list str := splitlines_from [] s.

(** [int(s)] on a run of decimal digits. *)
Definition digit_val (c : ascii) : Z := Z.of_N (code c) - 48.

Definition int_of_digits (s : str) : Z :=
  fold_left (fun acc c => 10 * acc + digit_val c) s 0.

End PyStr.

Import PyStr.

(* ------------------------------------------------------------------ *)
(** ** The part of [re] the program uses *)

Module Re.

(** One-character items.  Patterns are compiled with [re.IGNORECASE], so a
    literal matches both cases of its letter. *)
Inductive cclass : Type :=
| CLit (c : ascii)
| CDigit
| CSpace
| CDot
| CRange (lo hi : ascii).

Definition cmatch (cl : cclass) (ch : ascii) : bool :=
  match cl with
  | CLit c => Ascii.eqb (tolower ch) (tolower c)
  | CDigit => is_digit ch
  | CSpace => is_space ch
  | CDot => negb (Ascii.eqb ch LF)
  | CRange lo hi => in_range (code lo) (code hi) ch
  end.

(** Patterns.  Repetition is only ever applied to a one-character item in
    the source ([.*], [\d+], [\s+]). *)
Inductive regex : Type :=
| Eps
| Chr (c : cclass)
| Cat (r1 r2 : regex)
| Alt (r1 r2 : regex)
| Star (c : cclass)
| Group (name : string) (r : regex)
| Eos.

Definition Plus (c : cclass) : regex := Cat (Chr c) (Star c).

(** The pattern of a literal word. *)
Fixpoint word (s : str) : regex :=
  match s with
  | [] => Eps
  | c :: s' => Cat (Chr (CLit c)) (word s')
  end.

Definition groups := list (string * str).

(** Greedy repetition with backtracking: the longest run first. *)
Fixpoint star_run {R : Type} (cl : cclass) (s : str)
         (k : str -> option R) : option R :=
  match s with
  | ch :: s' =>
      if cmatch cl ch then
        match star_run cl s' k with
        | Some r => Some r
        | None => k s
        end
      else k s
  | [] => k s
  end.

(** The backtracking matcher, in continuation-passing style: [k] receives
    the groups captured so far and the text still to read.  Alternatives
    are tried left to right.  [$] holds at the end of the text and just
    before a line feed that ends it. *)
Fixpoint run {R : Type} (r : regex) (s : str) (g : groups)
         (k : groups -> str -> option R) : option R :=
  match r with
  | Eps => k g s
  | Chr cl =>
      match s with
      | ch :: s' => if cmatch cl ch then k g s' else None
      | [] => None
      end
  | Cat r1 r2 => run r1 s g (fun g' s' => run r2 s' g' k)
  | Alt r1 r2 =>
      match run r1 s g k with
      | Some x => Some x
      | None => run r2 s g k
      end
  | Star cl => star_run cl s (k g)
  | Group name r' =>
      run r' s g
          (fun g' s' =>
             k ((name, firstn (List.length s - List.length s') s) :: g') s')
  | Eos =>
      match s with
      | [] => k g s
      | [c] => if Ascii.eqb c LF then k g s else None
      | _ => None
      end
  end.

(** A match object: the groups and the text after the match. *)
Record match_obj : Type := { m_groups : groups; m_rest : str }.

(** [pattern.match(s)]: a match that starts at the first character. *)
Definition re_match (r : regex) (s : str) : option match_obj :=
  run r s [] (fun g s' => Some {| m_groups := g; m_rest := s' |}).

(** [pattern.search(s)]: the first position with a match. *)
Fixpoint re_search (r : regex) (s : str) : option match_obj :=
  match re_match r s with
  | Some m => Some m
  | None =>
      match s with
      | [] => None
      | _ :: s' => re_search r s'
      end
  end.

(** Truth value of a match result in an [if]. *)
Definition truthy {A : Type} (o : option A) : bool :=
  match o with Some _ => true | None => false end.

(** [m.group(name)]. *)
Fixpoint group (name : string) (g : groups) : option str :=
  match g with
  | [] => None
  | (n, v) :: g' => if String.eqb n name then Some v else group name g'
  end.

End Re.

Import Re.

(* ------------------------------------------------------------------ *)
(** ** [collections.Counter] as an insertion-ordered table *)

Section Counter.

Context {K : Type}.
Variable eqb : K -> K -> bool.

Definition Counter := list (K * Z).

(** [c[k]]: a missing key counts 0. *)
Fixpoint get (k : K) (c : Counter) : Z :=
  match c with
  | [] => 0
  | (k', n) :: c' => if eqb k' k then n else get k c'
  end.

(** [c[k] += 1]: a present key keeps its place, a new key goes last. *)
Fixpoint incr (k : K) (c : Counter) : Counter :=
  match c with
  | [] => [(k, 0 + 1)]
  | (k', n) :: c' =>
      if eqb k' k then (k', n + 1) :: c' else (k', n) :: incr k c'
  end.

(** [max(items, key=itemgetter(1))]: the first of the largest. *)
Fixpoint max_by_count (best : K * Z) (l : list (K * Z)) : K * Z :=
  match l with
  | [] => best
  | x :: l' => max_by_count (if snd best <? snd x then x else best) l'
  end.

(** [c.most_common(1)]. *)
Definition most_common_1 (c : Counter) : list (K * Z) :=
  match c with
  | [] => []
  | x :: l => [max_by_count x l]
  end.

(** [sorted(items, key=lambda x: x[1], reverse=True)]: a stable sort on
    the count, largest first. *)
Fixpoint insert_desc (x : K * Z) (l : list (K * Z)) : list (K * Z) :=
  match l with
  | [] => [x]
  | y :: l' =>
      if snd x <? snd y then y :: insert_desc x l' else x :: l
  end.

Fixpoint sorted_desc (l : list (K * Z)) : list (K * Z) :=
  match l with
  | [] => []
  | x :: l' => insert_desc x (sorted_desc l')
  end.

End Counter.

Arguments Counter K : clear implicits.

(* ------------------------------------------------------------------ *)
(** ** Results of code that may raise *)

Inductive result (A : Type) : Type :=
| Ok (a : A)
| Raise (msg : string).

Arguments Ok {A} a.
Arguments Raise {A} msg.

Definition bind {A B : Type} (x : result A) (f : A -> result B) : result B :=
  match x with
  | Ok a => f a
  | Raise msg => Raise msg
  end.

Notation "x <- e ;; k" := (bind e (fun x => k))
  (at level 61, e at next level, right associativity).

(* ------------------------------------------------------------------ *)
(** ** [csv.reader] with the default dialect

    The reader is a state machine over the characters of each line, followed
    by an end-of-line mark.  With the default dialect the delimiter is a
    comma, the quote character is the double quote, a doubled quote inside a
    quoted field stands for one quote, there is no escape character, and the
    reader is not strict.  A field may hold at most [field_limit]
    characters; one more raises [csv.Error].  (This is the reader of
    CPython 3.11 and later; earlier ones also raise on a NUL character.) *)

Module Csv.

Inductive state : Type :=
| START_RECORD
| START_FIELD
| IN_FIELD
| IN_QUOTED_FIELD
| QUOTE_IN_QUOTED_FIELD
| EAT_CRNL.

(** The reader's registers: the fields saved so far, and the field being
    read (last character first) with its length. *)
Record reader : Type := {
  st : state;
  fields : list str;
  field : str;
  field_len : N
}.

Definition field_limit : N := 131072.

Definition parse_reset : reader :=
  {| st := START_RECORD; fields := []; field := []; field_len := 0 |}.

Definition set_state (r : reader) (s : state) : reader :=
  {| st := s; fields := fields r; field := field r;
     field_len := field_len r |}.

Definition parse_save_field (r : reader) : reader :=
  {| st := st r; fields := fields r ++ [rev (field r)]; field := [];
     field_len := 0 |}.

Definition parse_add_char (r : reader) (c : ascii) : result reader :=
  if (field_limit <=? field_len r)%N
  then Raise "field larger than field limit (131072)"
  else Ok {| st := st r; fields := fields r; field := c :: field r;
             field_len := field_len r + 1 |}.

Definition is_newline (c : ascii) : bool :=
  Ascii.eqb c LF || Ascii.eqb c CR.

(** What every state but the quoted one does at the end of a field that
    ends the row: [c] is [None] at the end-of-line mark. *)
Definition end_row (r : reader) (c : option ascii) : reader :=
  set_state (parse_save_field r)
            (match c with None => START_RECORD | Some _ => EAT_CRNL end).

Definition in_start_field (r : reader) (c : option ascii) : result reader :=
  match c with
  | None => Ok (end_row r c)
  | Some ch =>
      if is_newline ch then Ok (end_row r c)
      else if Ascii.eqb ch DQUOTE then Ok (set_state r IN_QUOTED_FIELD)
      else if Ascii.eqb ch COMMA then Ok (parse_save_field r)
      else r' <- parse_add_char r ch ;; Ok (set_state r' IN_FIELD)
  end.

(** One character ([Some ch]) or the end-of-line mark ([None]). *)
Definition parse_process_char (r : reader) (c : option ascii)
  : result reader :=
  match st r with
  | START_RECORD =>
      match c with
      | None => Ok r
      | Some ch =>
          if is_newline ch then Ok (set_state r EAT_CRNL)
          else in_start_field (set_state r START_FIELD) c
      end
  | START_FIELD => in_start_field r c
  | IN_FIELD =>
      match c with
      | None => Ok (end_row r c)
      | Some ch =>
          if is_newline ch then Ok (end_row r c)
          else if Ascii.eqb ch COMMA
               then Ok (set_state (parse_save_field r) START_FIELD)
               else parse_add_char r ch
      end
  | IN_QUOTED_FIELD =>
      match c with
      | None => Ok r
      | Some ch =>
          if Ascii.eqb ch DQUOTE then Ok (set_state r QUOTE_IN_QUOTED_FIELD)
          else parse_add_char r ch
      end
  | QUOTE_IN_QUOTED_FIELD =>
      match c with
      | None => Ok (end_row r c)
      | Some ch =>
          if Ascii.eqb ch DQUOTE
          then r' <- parse_add_char r ch ;; Ok (set_state r' IN_QUOTED_FIELD)
          else if Ascii.eqb ch COMMA
               then Ok (set_state (parse_save_field r) START_FIELD)
               else if is_newline ch then Ok (end_row r c)
                    else r' <- parse_add_char r ch ;;
                         Ok (set_state r' IN_FIELD)
      end
  | EAT_CRNL =>
      match c with
      | None => Ok (set_state r START_RECORD)
      | Some ch =>
          if is_newline ch then Ok r
          else Raise "new-line character seen in unquoted field"
      end
  end.

(** The characters of one line, in order. *)
Fixpoint feed (r : reader) (line : str) : result reader :=
  match line with
  | [] => Ok r
  | ch :: line' => r' <- parse_process_char r (Some ch) ;; feed r' line'
  end.

(** One line and its end-of-line mark. *)
Definition feed_line (r : reader) (line : str) : result reader :=
  r' <- feed r line ;; parse_process_char r' None.

Definition in_quoted (r : reader) : bool :=
  match st r with IN_QUOTED_FIELD => true | _ => false end.

Definition at_start (r : reader) : bool :=
  match st r with START_RECORD => true | _ => false end.

(** All the rows the reader yields over [lines], from register [r].  A row
    is complete when a line ends in state [START_RECORD]; a quoted field
    still open at the end of a line goes on with the next line.  When the
    lines run out inside a row, what was read is the last row. *)
Fixpoint rows_from (r : reader) (lines : list str)
  : result (list (list str)) :=
  match lines with
  | [] =>
      if negb (field_len r =? 0)%N || in_quoted r
      then Ok [fields (parse_save_field r)]
      else Ok []
  | line :: rest =>
      r' <- feed_line r line ;;
      if at_start r'
      then rows <- rows_from parse_reset rest ;; Ok (fields r' :: rows)
      else rows_from r' rest
  end.

(** [list(csv.reader(lines))]. *)
Definition reader_rows (lines : list str) : result (list (list str)) :=
  rows_from parse_reset lines.

End Csv.

(* ------------------------------------------------------------------ *)
(** ** [datetime.strptime] for the format [%m/%d/%Y %H:%M:%S]

    The library turns the format into a pattern (one group per directive,
    each run of white space in the format into [\s+]), matches it at the
    start of the text, refuses text with characters left over, and then
    builds the date, which refuses a day that the month does not have, the
    year 0 and a second above 59. *)

Module Strptime.

Definition ch (c : ascii) : regex := Chr (CLit c).
Definition rng (lo hi : ascii) : regex := Chr (CRange lo hi).
Definition dig : regex := Chr CDigit.

(** [%m]: [1[0-2]|0[1-9]|[1-9]]. *)
Definition re_m : regex :=
  Alt (Cat (ch "1") (rng "0" "2"))
      (Alt (Cat (ch "0") (rng "1" "9")) (rng "1" "9")).

(** [%d]: [3[0-1]|[1-2]\d|0[1-9]|[1-9]| [1-9]]. *)
Definition re_d : regex :=
  Alt (Cat (ch "3") (rng "0" "1"))
      (Alt (Cat (rng "1" "2") dig)
           (Alt (Cat (ch "0") (rng "1" "9"))
                (Alt (rng "1" "9") (Cat (ch " ") (rng "1" "9"))))).

(** [%Y]: [\d\d\d\d]. *)
Definition re_Y : regex := Cat dig (Cat dig (Cat dig dig)).

(** [%H]: [2[0-3]|[0-1]\d|\d]. *)
Definition re_H : regex :=
  Alt (Cat (ch "2") (rng "0" "3")) (Alt (Cat (rng "0" "1") dig) dig).

(** [%M]: [[0-5]\d|\d]. *)
Definition re_M : regex := Alt (Cat (rng "0" "5") dig) dig.

(** [%S]: [6[0-1]|[0-5]\d|\d]. *)
Definition re_S : regex :=
  Alt (Cat (ch "6") (rng "0" "1")) (Alt (Cat (rng "0" "5") dig) dig).

Definition format_regex : regex :=
  Cat (Group "m" re_m) (Cat (ch "/")
  (Cat (Group "d" re_d) (Cat (ch "/")
  (Cat (Group "Y" re_Y) (Cat (Plus CSpace)
  (Cat (Group "H" re_H) (Cat (ch ":")
  (Cat (Group "M" re_M) (Cat (ch ":")
  (Group "S" re_S)))))))))).

Record datetime_obj : Type := {
  year : Z; month : Z; day : Z; hour : Z; minute : Z; second : Z
}.

Definition is_leap (y : Z) : bool :=
  (y mod 4 =? 0) && (negb (y mod 100 =? 0) || (y mod 400 =? 0)).

Definition days_in_month (y m : Z) : Z :=
  if m =? 2 then (if is_leap y then 29 else 28)
  else if (m =? 4) || (m =? 6) || (m =? 9) || (m =? 11) then 30
  else 31.

(** What the [date] and [datetime] constructors accept. *)
Definition valid_date (y m d : Z) : bool :=
  (1 <=? y) && (y <=? 9999) && (1 <=? m) && (m <=? 12)
  && (1 <=? d) && (d <=? days_in_month y m).

Definition valid_time (h mi s : Z) : bool :=
  (0 <=? h) && (h <=? 23) && (0 <=? mi) && (mi <=? 59)
  && (0 <=? s) && (s <=? 59).

(** [int(found.group(name))]; [int] skips surrounding white space. *)
Definition int_group (name : string) (g : groups) : Z :=
  match group name g with
  | Some v => int_of_digits (strip v)
  | None => 0
  end.

(** [datetime.strptime(data_string, '%m/%d/%Y %H:%M:%S')]; [None] stands
    for [ValueError]. *)
Definition strptime (data_string : str) : option datetime_obj :=
  match re_match format_regex data_string with
  | None => None
  | Some found =>
      match m_rest found with
      | _ :: _ => None
      | [] =>
          let g := m_groups found in
          let y := int_group "Y" g in
          let m := int_group "m" g in
          let d := int_group "d" g in
          let h := int_group "H" g in
          let mi := int_group "M" g in
          let s := int_group "S" g in
          if valid_date y m d && valid_time h mi s
          then Some {| year := y; month := m; day := d;
                       hour := h; minute := mi; second := s |}
          else None
      end
  end.

End Strptime.

(* ------------------------------------------------------------------ *)
(** ** Python floats *)

(** A finite [float] is the rational it denotes.  The division of two
    integers and the product of two floats return the binary64 value nearest
    to the exact result, the one with the even significand when two are
    equally near (the rounding of IEEE 754, which CPython's true division of
    integers implements as well).  Values beyond the largest finite float
    do not arise in the program, whose floats lie between 0 and 100, and are
    left out. *)
Module Float.

(** 2^e, for an exponent of either sign. *)
Definition pow2 (e : Z) : Q := Qpower 2 e.

(** The exponent of a value other than 0: the [e] with
    2^e <= |x| < 2^(e+1). *)
Definition ilog2 (x : Q) : Z :=
  let e := Z.log2 (Z.abs (Qnum x)) - Z.log2 (Zpos (Qden x)) in
  if Qle_bool (pow2 e) (Qabs x) then e else e - 1.

(** The integer nearest to [q], the even one of two equally near. *)
Definition rne (q : Q) : Z :=
  let f := Qfloor q in
  match (q - inject_Z f ?= 1 # 2)%Q with
  | Lt => f
  | Gt => f + 1
  | Eq => if Z.even f then f else f + 1
  end.

(** The exponent of the last place of [x]: a significand of 53 bits, and
    nothing finer than the subnormal step 2^-1074. *)
Definition scale (x : Q) : Z := Z.max (ilog2 x - 52) (-1074).

(** The binary64 value nearest to [x]. *)
Definition round64 (x : Q) : Q :=
  if Qnum x =? 0 then 0%Q
  else Qred (inject_Z (rne (x / pow2 (scale x))) * pow2 (scale x)).

(** [float(n)], as the product of a float and an integer converts the
    integer. *)
Definition of_int (n : Z) : Q := round64 (inject_Z n).

(** [a / b] on two integers, [b] other than 0. *)
Definition true_div (a b : Z) : Q := round64 (inject_Z a / inject_Z b).

(** [x * y] *)
Definition mul (x y : Q) : Q := round64 (x * y).

End Float.

(* ------------------------------------------------------------------ *)
(** ** The program *)

(** One row of the log, as [process_csv] builds it. *)
Record log_entry : Type := {
  path : str;
  datetime : str;
  browser : str;
  status : str;
  size : str
}.

(** The body of the loop of [process_csv]. *)
Definition add_row (processed_data : list log_entry) (row : list str)
  : list log_entry :=
  if (5 <=? List.length row)%nat then
    processed_data ++
      [ {| path := strip (nth 0 row []);
           datetime := strip (nth 1 row []);
           browser := strip (nth 2 row []);
           status := strip (nth 3 row []);
           size := strip (nth 4 row []) |} ]
  else processed_data.

Definition process_csv (data : str) : result (list log_entry) :=
  rows <- Csv.reader_rows (splitlines data) ;;
  Ok (fold_left add_row rows []).

(** [.*\.(jpg|gif|png)$] *)
Definition image_regex : regex :=
  Cat (Star CDot)
      (Cat (Chr (CLit "."))
           (Cat (Group "1" (Alt (word (lit "jpg"))
                                (Alt (word (lit "gif")) (word (lit "png")))))
                Eos)).

Definition is_image (entry : log_entry) : bool :=
  truthy (re_match image_regex (path entry)).

Definition count_image (image_count : Z) (entry : log_entry) : Z :=
  if is_image entry then image_count + 1 else image_count.

Definition find_image_requests (data : list log_entry) : Z * Q :=
  let image_count := fold_left count_image data 0 in
  let total_requests := Z.of_nat (List.length data) in
  let percentage :=
    if 0 <? total_requests
    then Float.mul (Float.true_div image_count total_requests)
                   (Float.of_int 100)
    else 0%Q in
  (image_count, percentage).

(** [Firefox/\d+], [Chrome/\d+], [MSIE \d+|Trident/\d+], [Safari/\d+] *)
Definition firefox_regex : regex := Cat (word (lit "Firefox/")) (Plus CDigit).
Definition chrome_regex : regex := Cat (word (lit "Chrome/")) (Plus CDigit).
Definition ie_regex : regex :=
  Alt (Cat (word (lit "MSIE ")) (Plus CDigit))
      (Cat (word (lit "Trident/")) (Plus CDigit)).
Definition safari_regex : regex := Cat (word (lit "Safari/")) (Plus CDigit).

Definition found (r : regex) (s : str) : bool := truthy (re_search r s).

(** The body of the loop of [find_most_popular_browser]. *)
Definition count_browser (browser_counts : Counter string)
           (entry : log_entry) : Counter string :=
  let user_agent := browser entry in
  if found firefox_regex user_agent then
    incr String.eqb "Firefox"%string browser_counts
  else if found chrome_regex user_agent then
    incr String.eqb "Chrome"%string browser_counts
  else if found ie_regex user_agent then
    incr String.eqb "Internet Explorer"%string browser_counts
  else if found safari_regex user_agent
          && negb (found chrome_regex user_agent) then
    incr String.eqb "Safari"%string browser_counts
  else
    incr String.eqb "Other"%string browser_counts.

Definition browser_tally (data : list log_entry) : Counter string :=
  fold_left count_browser data [].

Definition find_most_popular_browser (data : list log_entry) : string * Z :=
  match most_common_1 (browser_tally data) with
  | x :: _ => x
  | [] => ("None"%string, 0)
  end.

(** The body of the loop of [analyze_hits_by_hour]. *)
Definition count_hour (hour_counts : Counter Z) (entry : log_entry)
  : Counter Z :=
  match Strptime.strptime (datetime entry) with
  | Some date_obj => incr Z.eqb (Strptime.hour date_obj) hour_counts
  | None => hour_counts
  end.

Definition hour_tally (data : list log_entry) : Counter Z :=
  fold_left count_hour data [].

Definition analyze_hits_by_hour (data : list log_entry) : list (Z * Z) :=
  sorted_desc (hour_tally data).

(** The bucket a user agent falls in: the chain of tests of the loop of
    [find_most_popular_browser], with the label each branch increments. *)
Definition agent_bucket (user_agent : str) : string :=
  if found firefox_regex user_agent then "Firefox"
  else if found chrome_regex user_agent then "Chrome"
  else if found ie_regex user_agent then "Internet Explorer"
  else if found safari_regex user_agent
          && negb (found chrome_regex user_agent) then "Safari"
  else "Other".

(* ------------------------------------------------------------------ *)
(** ** Notions of the specification *)

(** Two texts that differ at most in the case of their letters. *)
Definition same_text (a b : str) : Prop := map tolower a = map tolower b.

(** [s] holds the version token [tok<digits>]: the word [tok], in any case,
    directly followed by a digit. *)
Definition has_token (tok : string) (s : str) : Prop :=
  exists pre w d post,
    s = pre ++ w ++ d :: post /\ same_text w (lit tok) /\ is_digit d = true.

Definition firefox_token (s : str) : Prop := has_token "Firefox/" s.
Definition chrome_token (s : str) : Prop := has_token "Chrome/" s.
Definition ie_token (s : str) : Prop :=
  has_token "MSIE " s \/ has_token "Trident/" s.
Definition safari_token (s : str) : Prop := has_token "Safari/" s.

(** The classifier flattened to a plain else-if chain, without the Chrome
    test in the Safari rule. *)
Definition agent_bucket_flat (user_agent : str) : string :=
  if found firefox_regex user_agent then "Firefox"
  else if found chrome_regex user_agent then "Chrome"
  else if found ie_regex user_agent then "Internet Explorer"
  else if found safari_regex user_agent then "Safari"
  else "Other".

Definition count_browser_flat (browser_counts : Counter string)
           (entry : log_entry) : Counter string :=
  incr String.eqb (agent_bucket_flat (browser entry)) browser_counts.

Definition find_most_popular_browser_flat (data : list log_entry)
  : string * Z :=
  match most_common_1 (fold_left count_browser_flat data []) with
  | x :: _ => x
  | [] => ("None"%string, 0)
  end.

(** The five buckets. *)
Definition buckets : list string :=
  ["Firefox"; "Chrome"; "Internet Explorer"; "Safari"; "Other"]%string.

(** The sum of the counts of a table. *)
Definition total {K : Type} (c : Counter K) : Z :=
  fold_right (fun kv acc => snd kv + acc) 0 c.

(** Number of occurrences of [k] in a sequence of keys. *)
Fixpoint occurrences {K : Type} (eqb : K -> K -> bool) (k : K)
         (ks : list K) : Z :=
  match ks with
  | [] => 0
  | k' :: ks' =>
      (if eqb k' k then 1 else 0) + occurrences eqb k ks'
  end.

(** [a] occurs in [ks] before any occurrence of [b]. *)
Definition hit_before {K : Type} (a b : K) (ks : list K) : Prop :=
  exists pre post, ks = pre ++ a :: post /\ ~ In b pre.

(** [a] stands before [b] in [l]. *)
Definition precedes {A : Type} (a b : A) (l : list A) : Prop :=
  exists p m q, l = p ++ a :: m ++ b :: q.

(** The table after the keys [ks] were counted one by one. *)
Definition tally {K : Type} (eqb : K -> K -> bool) (ks : list K)
  : Counter K :=
  fold_left (fun c k => incr eqb k c) ks [].

(** The keys of a table, in its order. *)
Definition keys {K : Type} (c : Counter K) : list K := map fst c.

(** The bucket of each record, in scan order. *)
Definition bucket_seq (data : list log_entry) : list string :=
  map (fun e => agent_bucket (browser e)) data.

(** The hour of each record whose timestamp parses, in scan order. *)
Definition hour_seq (data : list log_entry) : list Z :=
  flat_map (fun e => match Strptime.strptime (datetime e) with
                     | Some d => [Strptime.hour d]
                     | None => []
                     end) data.

(** A call that returns a value. *)
Definition succeeds {A : Type} (o : option A) : Prop :=
  exists v, o = Some v.

(** What a pattern denotes: [matches r s rest] when [r] matches a prefix of
    [s] and leaves [rest]. *)
Fixpoint matches (r : regex) (s rest : str) : Prop :=
  match r with
  | Eps => rest = s
  | Chr cl => exists ch, s = ch :: rest /\ cmatch cl ch = true
  | Cat r1 r2 => exists mid, matches r1 s mid /\ matches r2 mid rest
  | Alt r1 r2 => matches r1 s rest \/ matches r2 s rest
  | Star cl =>
      exists a, s = a ++ rest /\ Forall (fun ch => cmatch cl ch = true) a
  | Group _ r' => matches r' s rest
  | Eos => rest = s /\ (s = [] \/ s = [LF])
  end.

(** The parser as the specification words it: every line is split into
    fields on its own; a line with fewer than five fields gives nothing, a
    line with five or more gives one record of its first five fields,
    trimmed; the records come in line order. *)
Definition record_of_fields (row : list str) : list log_entry :=
  match row with
  | f0 :: f1 :: f2 :: f3 :: f4 :: _ =>
      [ {| path := strip f0; datetime := strip f1; browser := strip f2;
           status := strip f3; size := strip f4 |} ]
  | _ => []
  end.

Definition line_rows (line : str) : list (list str) :=
  match Csv.reader_rows [line] with
  | Ok rows => rows
  | Raise _ => []
  end.

Definition spec_parse (data : str) : list log_entry :=
  flat_map (fun line => flat_map record_of_fields (line_rows line))
           (splitlines data).

(** A line that, read on its own, raises no error and leaves no quoted
    field open. *)
Definition closed_line (line : str) : bool :=
  match Csv.feed_line Csv.parse_reset line with
  | Ok r => Csv.at_start r
  | Raise _ => false
  end.

(** What a pattern denotes, with the groups it captures: from the groups
    [g], [r] matches a prefix of [s], leaves [rest] and has the groups
    [g']. *)
Fixpoint matches_g (r : regex) (s : str) (g : groups) (rest : str)
         (g' : groups) : Prop :=
  match r with
  | Eps => rest = s /\ g' = g
  | Chr cl => (exists ch, s = ch :: rest /\ cmatch cl ch = true) /\ g' = g
  | Cat r1 r2 =>
      exists mid gm, matches_g r1 s g mid gm /\ matches_g r2 mid gm rest g'
  | Alt r1 r2 => matches_g r1 s g rest g' \/ matches_g r2 s g rest g'
  | Star cl =>
      (exists a, s = a ++ rest /\ Forall (fun ch => cmatch cl ch = true) a)
      /\ g' = g
  | Group name r' =>
      exists g0, matches_g r' s g rest g0
                 /\ g' = (name, firstn (List.length s - List.length rest) s)
                            :: g0
  | Eos => (rest = s /\ (s = [] \/ s = [LF])) /\ g' = g
  end.

(** One or two decimal digits that read as a number from [lo] to [hi]. *)
Definition numeral (lo hi : Z) (s : str) : Prop :=
  (List.length s = 1 \/ List.length s = 2)%nat
  /\ Forall (fun c => is_digit c = true) s
  /\ lo <= int_of_digits s <= hi.

(** A day: a numeral from 1 to 31, or a space and one digit from 1 to 9. *)
Definition day_text (s : str) : Prop :=
  numeral 1 31 s
  \/ exists c, s = [" "%char; c] /\ is_digit c = true
               /\ 1 <= digit_val c.

(** The timestamps [strptime] accepts for [%m/%d/%Y %H:%M:%S], and the
    date each one stands for: month, day, hour, minute and second of one
    or two digits, a year of four digits, at least one white-space
    character between date and time, and a date of the calendar. *)
Definition timestamp_format (ts : str) (d : Strptime.datetime_obj) : Prop :=
  exists mo da y ws h mi se,
    ts = mo ++ "/"%char :: da ++ "/"%char :: y ++ ws
            ++ h ++ ":"%char :: mi ++ ":"%char :: se
    /\ numeral 1 12 mo /\ day_text da
    /\ (List.length y = 4%nat /\ Forall (fun c => is_digit c = true) y)
    /\ (ws <> [] /\ Forall (fun c => is_space c = true) ws)
    /\ numeral 0 23 h /\ numeral 0 59 mi /\ numeral 0 59 se
    /\ d = {| Strptime.year := int_of_digits y;
              Strptime.month := int_of_digits mo;
              Strptime.day := int_of_digits (strip da);
              Strptime.hour := int_of_digits h;
              Strptime.minute := int_of_digits mi;
              Strptime.second := int_of_digits se |}
    /\ Strptime.valid_date (int_of_digits y) (int_of_digits mo)
                           (int_of_digits (strip da)) = true.

(** Text that does not go on with a digit. *)
Definition no_digit_next (rest : str) : Prop :=
  match rest with
  | [] => True
  | c :: _ => is_digit c = false
  end.

(** A timestamp that starts with a month of two digits and a slash. *)
Definition two_digit_month (ts : str) : bool :=
  match ts with
  | a :: b :: c :: _ => is_digit a && is_digit b && Ascii.eqb c "/"%char
  | _ => false
  end.

(** Text without any line boundary. *)
Definition one_line (s : str) : Prop :=
  Forall (fun c => is_linebreak c = false) s.

(** Entries in the order of the report: the larger count first. *)
Definition count_ge {K : Type} (a b : K * Z) : Prop := snd b <= snd a.

(** A reader that holds no line boundary in what it has read. *)
Definition clean_reader (r : Csv.reader) : Prop :=
  Forall one_line (Csv.fields r) /\ one_line (Csv.field r).

(** A record without any line boundary in its fields. *)
Definition one_line_entry (e : log_entry) : Prop :=
  one_line (path e) /\ one_line (datetime e) /\ one_line (browser e)
  /\ one_line (status e) /\ one_line (size e).

(** The text of [n] characters [c]. *)
Definition run_of (c : ascii) (n : N) : str := N.iter n (cons c) [].

(** The record [e] with another timestamp. *)
Definition with_datetime (ts : str) (e : log_entry) : log_entry :=
  {| path := path e; datetime := ts; browser := browser e;
     status := status e; size := size e |}.

(** A path that ends in [.jpg], [.gif] or [.png], in any case. *)
Definition ends_in_image_ext (p : str) : Prop :=
  exists stem ext,
    p = stem ++ "."%char :: ext
    /\ (same_text ext (lit "jpg") \/ same_text ext (lit "gif")
        \/ same_text ext (lit "png")).

(** The percentage as the specification writes it, 100 * count / total,
    taken exactly. *)
Definition exact_share (count total : Z) : Q :=
  (inject_Z 100 * inject_Z count / inject_Z total)%Q.

(** Seven image requests among a hundred records. *)
Definition seven_of_hundred : list log_entry :=
  repeat {| path := lit "/img/a.png"; datetime := []; browser := [];
            status := []; size := [] |} 7
  ++ repeat {| path := lit "/index.html"; datetime := []; browser := [];
               status := []; size := [] |} 93.

(** Text that neither begins nor ends with white space. *)
Definition no_outer_space (s : str) : Prop :=
  (forall c t, s = c :: t -> is_space c = false)
  /\ (forall c t, s = t ++ [c] -> is_space c = false).

(** A record whose five fields are trimmed. *)
Definition trimmed_entry (e : log_entry) : Prop :=
  no_outer_space (path e) /\ no_outer_space (datetime e)
  /\ no_outer_space (browser e) /\ no_outer_space (status e)
  /\ no_outer_space (size e).

(** A record whose timestamp parses. *)
Definition parses (e : log_entry) : bool :=
  match Strptime.strptime (datetime e) with
  | Some _ => true
  | None => false
  end.

(** The hours of the day. *)
Definition day_hours : list Z := map Z.of_nat (seq 0 24).

(** The message of the error the reader raises on a field that is too
    long. *)
Definition field_limit_error : string :=
  "field larger than field limit (131072)".

(** A reader that is not in the state that follows a line break inside a
    line. *)
Definition not_eating (r : Csv.reader) : Prop :=
  Csv.st r <> Csv.EAT_CRNL.

(* ------------------------------------------------------------------ *)
(** ** The report driver

    [main] fetches the text, parses it, runs the three analyses and prints
    the figures; any exception ends the run with one error line.  Its
    output is modelled as the list of the texts printed, one per call of
    [print]. *)

(** [str(n)] for an integer. *)
Definition str_of_int (n : Z) : str :=
  list_ascii_of_string (NilZero.string_of_int (Z.to_int n)).

(** [f"{n:02d}"]: at least two characters, filled with a zero. *)
Definition pad2 (n : Z) : str :=
  let s := str_of_int n in
  if (List.length s <? 2)%nat then "0"%char :: s else s.

(** The line of the [except] branch. *)
Definition error_line (msg : string) : str :=
  lit "An error occurred: " ++ lit msg.

(** One row of the hourly report. *)
Definition hour_line (row : Z * Z) : str :=
  lit "Hour " ++ pad2 (fst row) ++ lit " has " ++ str_of_int (snd row)
      ++ lit " hits".

Section MainModel.

(** The transport, which returns the text or raises, and the format
    [f"{x:.1f}"] of a float are taken as given. *)
Variable download_data : str -> result str.
Variable format_1f : Q -> str.

(** What [main] prints for the URL given on the command line. *)
Definition main (url : str) : list str :=
  (lit "Downloading data from " ++ url ++ lit "...")
  :: match download_data url with
     | Raise msg => [error_line msg]
     | Ok csv_data =>
         lit "Processing CSV data..."
         :: match process_csv csv_data with
            | Raise msg => [error_line msg]
            | Ok log_entries =>
                let (image_count, image_percentage) :=
                  find_image_requests log_entries in
                let (most_popular_browser, browser_count) :=
                  find_most_popular_browser log_entries in
                [ lit "Processed "
                    ++ str_of_int (Z.of_nat (List.length log_entries))
                    ++ lit " log entries";
                  lit "Analyzing image requests...";
                  lit "Image requests account for "
                    ++ format_1f image_percentage
                    ++ lit "% of all requests";
                  lit "Determining most popular browser...";
                  lit "The most popular browser is "
                    ++ lit most_popular_browser ++ lit " with "
                    ++ str_of_int browser_count ++ lit " hits";
                  LF :: lit "Extra Credit - Hits by Hour:" ]
                ++ map hour_line (analyze_hits_by_hour log_entries)
            end
     end.

End MainModel.

(** A printed hour row: the hour takes exactly two digits. *)
Definition two_digit_hour_line (l : str) : Prop :=
  exists d1 d2 rest,
    l = lit "Hour " ++ d1 :: d2 :: lit " has " ++ rest
    /\ is_digit d1 = true /\ is_digit d2 = true
    /\ 0 <= 10 * digit_val d1 + digit_val d2 <= 23.

(* ------------------------------------------------------------------ *)
(** ** Facts about the matcher *)

Section MatcherFacts.

Lemma truthy_true : forall (A : Type) (o : option A),
  truthy o = true <-> exists v, o = Some v.
Proof.
  intros A [v|]; simpl; split; intros H.
  - now exists v.
  - reflexivity.
  - discriminate.
  - destruct H as [v H]; discriminate.
Qed.

Lemma same_text_nil : forall t, same_text t [] <-> t = [].
Proof.
  intros [|c t]; unfold same_text; simpl; split; intros H;
    try reflexivity; discriminate.
Qed.

Lemma same_text_cons : forall ch t c w,
  same_text (ch :: t) (c :: w) <-> tolower ch = tolower c /\ same_text t w.
Proof.
  unfold same_text; simpl; intros; split.
  - intros H; injection H; auto.
  - intros [H1 H2]; now rewrite H1, H2.
Qed.

Lemma same_text_length : forall a b, same_text a b -> List.length a = List.length b.
Proof.
  unfold same_text; intros a b H.
  rewrite <- (length_map tolower a), H; apply length_map.
Qed.

(** A literal word consumes a prefix equal to it up to case. *)
Lemma run_word : forall (R : Type) w s g (k : groups -> str -> option R) v,
  run (word w) s g k = Some v <->
  exists t rest, s = t ++ rest /\ same_text t w /\ k g rest = Some v.
Proof.
  induction w as [|c w IH]; intros s g k v; simpl.
  - split.
    + intros H; exists [], s; repeat split; auto.
    + intros (t & rest & -> & Ht & Hk).
      apply -> same_text_nil in Ht; subst t; exact Hk.
  - destruct s as [|ch s'].
    + split; [discriminate|].
      intros (t & rest & Hs & Ht & _).
      destruct t; [apply same_text_length in Ht|]; discriminate.
    + destruct (Ascii.eqb_spec (tolower ch) (tolower c)) as [E|E].
      * rewrite IH; split.
        -- intros (t & rest & -> & Ht & Hk).
           exists (ch :: t), rest; repeat split; auto.
           now apply same_text_cons.
        -- intros (t & rest & Hs & Ht & Hk).
           destruct t as [|ch' t];
             [apply same_text_length in Ht; discriminate|].
           injection Hs as E1 E2; subst.
           destruct (proj1 (same_text_cons _ _ _ _) Ht) as [_ Ht'].
           now exists t, rest.
      * split; [discriminate|].
        intros (t & rest & Hs & Ht & _).
        destruct t as [|ch' t];
          [apply same_text_length in Ht; discriminate|].
        injection Hs as E1 E2; subst.
        destruct (proj1 (same_text_cons _ _ _ _) Ht) as [Ht' _]; contradiction.
Qed.

(** A repetition whose continuation always succeeds succeeds. *)
Lemma star_run_total : forall (R : Type) cl s (k : str -> option R),
  (forall s', exists v, k s' = Some v) ->
  exists v, star_run cl s k = Some v.
Proof.
  induction s as [|ch s IH]; intros k Hk; simpl.
  - apply Hk.
  - destruct (cmatch cl ch).
    + destruct (IH k Hk) as [v ->]; now exists v.
    + apply Hk.
Qed.

(** [word<digits>] matches at the start of [s] exactly when [s] starts
    with the word, in any case, and a digit. *)
Lemma token_match : forall w s,
  truthy (re_match (Cat (word w) (Plus CDigit)) s) = true <->
  exists t d post, s = t ++ d :: post /\ same_text t w /\ is_digit d = true.
Proof.
  intros w s; rewrite truthy_true; unfold re_match; simpl; split.
  - intros [v H]; apply run_word in H as (t & rest & -> & Ht & Hk).
    destruct rest as [|d post]; [discriminate|].
    destruct (is_digit d) eqn:Hd; [|discriminate].
    now exists t, d, post.
  - intros (t & d & post & -> & Ht & Hd).
    destruct (star_run_total match_obj CDigit post
                (fun s' => Some {| m_groups := []; m_rest := s' |}))
      as [v Hv]; [intros s'; eauto|].
    exists v; apply run_word; exists t, (d :: post).
    repeat split; auto; simpl; now rewrite Hd.
Qed.

(** A search succeeds exactly when some suffix matches. *)
Lemma found_iff : forall r s,
  found r s = true <->
  exists pre suf, s = pre ++ suf /\ truthy (re_match r suf) = true.
Proof.
  intros r s; unfold found; induction s as [|c s IH]; simpl.
  - destruct (re_match r []) eqn:E; simpl; split; auto.
    + intros _; exists [], []; rewrite E; auto.
    + discriminate.
    + intros (pre & suf & Hs & Ht).
      symmetry in Hs; apply app_eq_nil in Hs as [-> ->].
      now rewrite E in Ht.
  - destruct (re_match r (c :: s)) eqn:E; simpl.
    + split; auto; intros _; exists [], (c :: s); rewrite E; auto.
    + rewrite IH; split.
      * intros (pre & suf & -> & Ht); now exists (c :: pre), suf.
      * intros (pre & suf & Hs & Ht).
        destruct pre as [|c' pre]; simpl in Hs.
        -- subst suf; now rewrite E in Ht.
        -- injection Hs as E1 E2; subst; now exists pre, suf.
Qed.

Lemma found_token : forall tok s,
  found (Cat (word (lit tok)) (Plus CDigit)) s = true <-> has_token tok s.
Proof.
  intros tok s; rewrite found_iff; unfold has_token; split.
  - intros (pre & suf & -> & H).
    apply token_match in H as (t & d & post & -> & Ht & Hd).
    now exists pre, t, d, post.
  - intros (pre & w & d & post & -> & Ht & Hd).
    exists pre, (w ++ d :: post); split; auto.
    apply token_match; now exists w, d, post.
Qed.

Lemma match_alt : forall r1 r2 s,
  truthy (re_match (Alt r1 r2) s)
  = truthy (re_match r1 s) || truthy (re_match r2 s).
Proof.
  intros; unfold re_match; simpl.
  now destruct (run r1 s [] _).
Qed.

Lemma found_alt : forall r1 r2 s,
  found (Alt r1 r2) s = found r1 s || found r2 s.
Proof.
  intros r1 r2 s; apply eq_true_iff_eq.
  rewrite orb_true_iff, !found_iff; split.
  - intros (pre & suf & -> & H).
    rewrite match_alt, orb_true_iff in H.
    destruct H; [left|right]; now exists pre, suf.
  - intros [(pre & suf & -> & H)|(pre & suf & -> & H)];
      exists pre, suf; rewrite match_alt, H; auto using orb_true_r.
Qed.

Lemma found_firefox : forall s,
  found firefox_regex s = true <-> firefox_token s.
Proof. intros; apply found_token. Qed.

Lemma found_chrome : forall s,
  found chrome_regex s = true <-> chrome_token s.
Proof. intros; apply found_token. Qed.

Lemma found_safari : forall s,
  found safari_regex s = true <-> safari_token s.
Proof. intros; apply found_token. Qed.

Lemma found_ie : forall s, found ie_regex s = true <-> ie_token s.
Proof.
  intros s; unfold ie_regex, ie_token.
  now rewrite found_alt, orb_true_iff, !found_token.
Qed.

Lemma star_run_succeeds : forall (R : Type) cl s (k : str -> option R),
  succeeds (star_run cl s k) <->
  exists a b, s = a ++ b /\ Forall (fun ch => cmatch cl ch = true) a
              /\ succeeds (k b).
Proof.
  unfold succeeds; induction s as [|ch s IH]; intros k; simpl.
  - split.
    + intros H; exists [], []; auto.
    + intros (a & b & E & _ & H).
      symmetry in E; apply app_eq_nil in E as [-> ->]; exact H.
  - destruct (cmatch cl ch) eqn:Hc.
    + split.
      * destruct (star_run cl s k) eqn:Hs.
        -- intros _.
           destruct (proj1 (IH k)) as (a & b & -> & Ha & Hb); eauto.
           exists (ch :: a), b; auto.
        -- intros H; exists [], (ch :: s); auto.
      * intros (a & b & E & Ha & Hb).
        destruct a as [|ch' a]; simpl in E.
        -- subst b; destruct (star_run cl s k); eauto.
        -- injection E as <- ->; inversion Ha; subst.
           destruct (proj2 (IH k)) as [v ->]; eauto.
    + split.
      * intros H; exists [], (ch :: s); auto.
      * intros (a & b & E & Ha & Hb).
        destruct a as [|ch' a]; simpl in E; [now subst b|].
        injection E as <- ->; inversion Ha; congruence.
Qed.

(** The matcher succeeds exactly when the pattern matches a prefix that
    leaves text on which the continuation succeeds, provided the success
    of the continuation does not depend on the groups. *)
Lemma run_succeeds : forall (R : Type) r s g
                            (k : groups -> str -> option R)
                            (ok : str -> Prop),
  (forall g' s', succeeds (k g' s') <-> ok s') ->
  (succeeds (run r s g k) <-> exists rest, matches r s rest /\ ok rest).
Proof.
  induction r as [|cl|r1 IH1 r2 IH2|r1 IH1 r2 IH2|cl|name r IH|];
    intros s g k ok Hk; simpl.
  - rewrite Hk; split; [intros H; now exists s|intros (rest & -> & H); auto].
  - destruct s as [|ch s].
    + split; [intros [v H]; discriminate|].
      intros (rest & (ch & E & _) & _); discriminate.
    + destruct (cmatch cl ch) eqn:Hc.
      * rewrite Hk; split; [intros H; exists s; eauto|].
        intros (rest & (ch' & E & _) & H); now injection E as _ <-.
      * split; [intros [v H]; discriminate|].
        intros (rest & (ch' & E & Hc') & _); injection E as <- _.
        congruence.
  - rewrite (IH1 _ _ _ (fun s' => exists rest, matches r2 s' rest /\ ok rest)).
    + split.
      * intros (mid & H1 & rest & H2 & H); exists rest; eauto.
      * intros (rest & (mid & H1 & H2) & H); exists mid; eauto.
    + intros g' s'; now apply IH2.
  - specialize (IH1 s g k ok Hk); specialize (IH2 s g k ok Hk).
    destruct (run r1 s g k) eqn:E1.
    + split; [|intros _; now exists r].
      intros _; destruct (proj1 IH1) as (rest & H1 & H); [now exists r|].
      exists rest; auto.
    + rewrite IH2; split.
      * intros (rest & H2 & H); exists rest; auto.
      * intros (rest & [H1|H2] & H); [|exists rest; auto].
        destruct (proj2 IH1) as [v Hv]; [exists rest; auto|discriminate].
  - rewrite star_run_succeeds; split.
    + intros (a & b & -> & Ha & Hb); exists b; split; [now exists a|].
      now apply (Hk g).
    + intros (rest & (a & -> & Ha) & H); exists a, rest.
      repeat split; auto; now apply Hk.
  - apply IH; intros g' s'; apply Hk.
  - destruct s as [|c [|c' s]].
    + rewrite Hk; split; [intros H; exists []; auto|].
      now intros (rest & (-> & _) & H).
    + destruct (Ascii.eqb_spec c LF) as [->|Hc].
      * rewrite Hk; split; [intros H; exists [LF]; auto|].
        now intros (rest & (-> & _) & H).
      * split; [intros [v H]; discriminate|].
        intros (rest & (-> & [H|H]) & _); [discriminate|congruence].
    + split; [intros [v H]; discriminate|].
      intros (rest & (-> & [H|H]) & _); discriminate.
Qed.

Lemma re_match_matches : forall r s,
  truthy (re_match r s) = true <-> exists rest, matches r s rest.
Proof.
  intros r s; rewrite truthy_true; unfold re_match.
  change (succeeds (run r s []
            (fun g s' => Some {| m_groups := g; m_rest := s' |}))
          <-> exists rest, matches r s rest).
  rewrite (run_succeeds _ r s [] _ (fun _ => True)).
  - split; intros (rest & H); [destruct H|]; exists rest; auto.
  - intros g' s'; split; auto; intros _; unfold succeeds; eauto.
Qed.

Lemma matches_word : forall w s rest,
  matches (word w) s rest <-> exists t, s = t ++ rest /\ same_text t w.
Proof.
  induction w as [|c w IH]; intros s rest; simpl.
  - split.
    + intros ->; exists []; split; auto; reflexivity.
    + intros (t & -> & Ht).
      now apply (proj1 (same_text_nil t)) in Ht; subst t.
  - split.
    + intros (mid & (ch & -> & Hc) & Hm).
      apply (proj1 (IH _ _)) in Hm as (t & -> & Ht).
      exists (ch :: t); split; auto.
      apply same_text_cons; split; auto.
      now apply Ascii.eqb_eq.
    + intros (t & -> & Ht).
      destruct t as [|ch t];
        [apply same_text_length in Ht; discriminate|].
      destruct (proj1 (same_text_cons _ _ _ _) Ht) as [Hc Ht'].
      exists (t ++ rest); split.
      * exists ch; split; auto; now apply Ascii.eqb_eq.
      * apply IH; now exists t.
Qed.

End MatcherFacts.

(* ------------------------------------------------------------------ *)
(** ** Facts about counting tables *)

Section CounterFacts.

Context {K : Type}.
Variable eqb : K -> K -> bool.
Hypothesis eqb_eq : forall a b, eqb a b = true <-> a = b.

Lemma eqb_refl : forall a, eqb a a = true.
Proof. intros; now apply eqb_eq. Qed.

Lemma eqb_neq : forall a b, eqb a b = false <-> a <> b.
Proof.
  intros a b; rewrite <- eqb_eq; destruct (eqb a b); split; congruence.
Qed.

Lemma get_incr : forall k k' c,
  get eqb k' (incr eqb k c) = get eqb k' c + (if eqb k k' then 1 else 0).
Proof.
  induction c as [|[k0 n] c IH]; simpl.
  - destruct (eqb k k'); reflexivity.
  - destruct (eqb k0 k) eqn:E0; simpl.
    + apply eqb_eq in E0; subst k0.
      destruct (eqb k k'); lia.
    + destruct (eqb k0 k') eqn:E1; [|apply IH].
      apply eqb_eq in E1; subst k0.
      destruct (eqb k k') eqn:E2; [|lia].
      apply eqb_eq in E2; subst k'.
      rewrite eqb_refl in E0; discriminate.
Qed.

Lemma keys_incr : forall k c,
  keys (incr eqb k c) = if existsb (fun k' => eqb k' k) (keys c)
                        then keys c else keys c ++ [k].
Proof.
  unfold keys; induction c as [|[k0 n] c IH]; simpl; auto.
  destruct (eqb k0 k); simpl; auto.
  rewrite IH; now destruct (existsb _ _).
Qed.

Lemma existsb_keys : forall k l,
  existsb (fun k' => eqb k' k) l = true <-> In k l.
Proof.
  intros k l; rewrite existsb_exists; split.
  - intros (x & Hx & E); apply eqb_eq in E; now subst.
  - intros H; exists k; split; auto using eqb_refl.
Qed.

Lemma total_incr : forall k c, total (incr eqb k c) = total c + 1.
Proof.
  unfold total; induction c as [|[k0 n] c IH]; simpl; [lia|].
  destruct (eqb k0 k); simpl; lia.
Qed.

Lemma tally_snoc : forall ks k,
  tally eqb (ks ++ [k]) = incr eqb k (tally eqb ks).
Proof. intros; unfold tally; now rewrite fold_left_app. Qed.

Lemma occurrences_app : forall k a b,
  occurrences eqb k (a ++ b) = occurrences eqb k a + occurrences eqb k b.
Proof. induction a as [|x a IH]; intros; simpl; [|rewrite IH]; lia. Qed.

Lemma occurrences_nonneg : forall k ks, 0 <= occurrences eqb k ks.
Proof.
  induction ks as [|x ks IH]; simpl; [lia|]; destruct (eqb x k); lia.
Qed.

Lemma occurrences_pos : forall k ks, In k ks <-> 1 <= occurrences eqb k ks.
Proof.
  induction ks as [|x ks IH]; simpl; [split; [tauto|lia]|].
  pose proof (occurrences_nonneg k ks).
  destruct (eqb x k) eqn:E.
  - apply eqb_eq in E; split; [lia|auto].
  - apply eqb_neq in E; rewrite IH; split; [intros [?|?]|]; auto;
      try contradiction; try lia; intros; right; lia.
Qed.

Lemma occurrences_le_length : forall k ks,
  occurrences eqb k ks <= Z.of_nat (List.length ks).
Proof.
  induction ks as [|x ks IH]; simpl List.length; simpl occurrences; [lia|].
  destruct (eqb x k); lia.
Qed.

(** The count of a key is the number of its occurrences. *)
Lemma get_tally : forall k ks, get eqb k (tally eqb ks) = occurrences eqb k ks.
Proof.
  intros k ks; induction ks as [|x ks IH] using rev_ind; [reflexivity|].
  rewrite tally_snoc, get_incr, IH, occurrences_app; simpl; lia.
Qed.

Lemma total_tally : forall ks, total (tally eqb ks) = Z.of_nat (List.length ks).
Proof.
  intros ks; induction ks as [|x ks IH] using rev_ind; [reflexivity|].
  rewrite tally_snoc, total_incr, IH, length_app; simpl; lia.
Qed.

(** The keys of the table are the keys counted, each once. *)
Lemma keys_tally_In : forall k ks, In k (keys (tally eqb ks)) <-> In k ks.
Proof.
  intros k ks; revert k.
  induction ks as [|x ks IH] using rev_ind; intros k; [reflexivity|].
  rewrite tally_snoc, keys_incr, in_app_iff; simpl.
  destruct (existsb _ _) eqn:E.
  - apply existsb_keys, IH in E; rewrite IH.
    split; [tauto|intros [?|[<-|[]]]; auto].
  - rewrite in_app_iff, IH; simpl; tauto.
Qed.

Lemma keys_tally_NoDup : forall ks, NoDup (keys (tally eqb ks)).
Proof.
  intros ks; induction ks as [|x ks IH] using rev_ind; [constructor|].
  rewrite tally_snoc, keys_incr.
  destruct (existsb _ _) eqn:E; auto.
  apply NoDup_app; auto.
  - repeat constructor; simpl; tauto.
  - intros a Ha [<-|[]].
    apply existsb_keys in Ha; congruence.
Qed.

Lemma get_In : forall k n c,
  NoDup (keys c) -> In (k, n) c -> get eqb k c = n.
Proof.
  induction c as [|[k0 n0] c IH]; simpl; [tauto|].
  intros Hnd [E|Hin]; inversion Hnd; subst.
  - injection E as -> ->; now rewrite eqb_refl.
  - destruct (eqb k0 k) eqn:E; auto.
    apply eqb_eq in E; subst k0.
    exfalso; apply H1; unfold keys; rewrite in_map_iff; now exists (k, n).
Qed.

(** Every entry of the table carries the number of occurrences of its key,
    which is at least one. *)
Lemma tally_entry : forall k n ks,
  In (k, n) (tally eqb ks) -> n = occurrences eqb k ks /\ 1 <= n.
Proof.
  intros k n ks Hin.
  assert (n = occurrences eqb k ks) as ->.
  { rewrite <- get_tally; symmetry; apply get_In; auto.
    apply keys_tally_NoDup. }
  split; auto; apply occurrences_pos, keys_tally_In.
  unfold keys; rewrite in_map_iff; now exists (k, occurrences eqb k ks).
Qed.

Lemma tally_entry_of_key : forall k ks,
  In k ks -> In (k, occurrences eqb k ks) (tally eqb ks).
Proof.
  intros k ks Hin; apply keys_tally_In in Hin.
  unfold keys in Hin; rewrite in_map_iff in Hin.
  destruct Hin as ([k' n] & E & Hin); simpl in E; subst k'.
  now destruct (tally_entry _ _ _ Hin) as [<- _].
Qed.

Lemma hit_before_snoc : forall (a b x : K) ks,
  hit_before a b ks -> hit_before a b (ks ++ [x]).
Proof.
  intros a b x ks (pre & post & -> & Hb).
  exists pre, (post ++ [x]); split; auto.
  now rewrite <- app_assoc.
Qed.

(** The table lists its keys in the order of their first occurrence. *)
Lemma keys_tally_order : forall ks a b p q,
  keys (tally eqb ks) = p ++ a :: q -> In b q -> hit_before a b ks.
Proof.
  intros ks; induction ks as [|x ks IH] using rev_ind; intros a b p q Hk Hb.
  - destruct p; discriminate.
  - rewrite tally_snoc, keys_incr in Hk.
    destruct (existsb _ _) eqn:E.
    + apply hit_before_snoc; eauto.
    + destruct (exists_last (l := q)) as (q' & y & ->);
        [intros ->; contradiction|].
      change (p ++ a :: q' ++ [y]) with (p ++ (a :: q') ++ [y]) in Hk.
      rewrite app_assoc in Hk.
      apply app_inj_tail in Hk as [Hk <-].
      apply in_app_iff in Hb as [Hb|[<-|[]]].
      * apply hit_before_snoc; eauto.
      * assert (In a ks) as Ha.
        { apply keys_tally_In; rewrite Hk, in_app_iff; simpl; auto. }
        apply in_split in Ha as (pre & post & ->).
        exists pre, (post ++ [x]); split.
        -- now rewrite <- app_assoc.
        -- intros Hx.
           assert (existsb (fun k' => eqb k' x)
                     (keys (tally eqb (pre ++ a :: post))) = true);
             [|congruence].
           apply existsb_keys, keys_tally_In, in_app_iff; auto.
Qed.

(** [max_by_count] returns the first entry with the largest count. *)
Lemma max_by_count_first : forall (l : list (K * Z)) best,
  exists p q,
    best :: l = p ++ max_by_count best l :: q
    /\ (forall y, In y p -> snd y < snd (max_by_count best l))
    /\ (forall y, In y q -> snd y <= snd (max_by_count best l)).
Proof.
  induction l as [|x l IH]; intros best; simpl.
  - exists [], []; simpl; repeat split; tauto.
  - destruct (snd best <? snd x) eqn:E.
    + apply Z.ltb_lt in E.
      destruct (IH x) as (p & q & Hl & Hp & Hq).
      exists (best :: p), q; simpl; rewrite <- Hl; repeat split; auto.
      intros y [<-|Hy]; auto.
      destruct p as [|x' p].
      * injection Hl as <- _; exact E.
      * injection Hl as <- _.
        specialize (Hp x (or_introl eq_refl)); lia.
    + apply Z.ltb_ge in E.
      destruct (IH best) as (p & q & Hl & Hp & Hq).
      destruct p as [|b' p].
      * injection Hl as Hb Hl'.
        exists [], (x :: l); simpl; rewrite <- Hb; repeat split;
          try tauto.
        intros y [<-|Hy]; auto.
        rewrite Hb; apply Hq; rewrite <- Hl'; exact Hy.
      * injection Hl as <- Hl'.
        exists (best :: x :: p), q; simpl; rewrite <- Hl'.
        repeat split; auto.
        intros y [<-|[<-|Hy]].
        -- apply Hp; simpl; auto.
        -- specialize (Hp best (or_introl eq_refl)); lia.
        -- apply Hp; simpl; auto.
Qed.

Lemma precedes_cons : forall (A : Type) (a b y : A) l,
  precedes a b (y :: l) <-> (a = y /\ In b l) \/ precedes a b l.
Proof.
  intros A a b y l; split.
  - intros (p & m & q & H).
    destruct p as [|y' p]; simpl in H; injection H as -> ->.
    + left; split; auto; rewrite in_app_iff; simpl; auto.
    + right; now exists p, m, q.
  - intros [[-> Hb]|(p & m & q & ->)].
    + apply in_split in Hb as (m & q & ->); now exists [], m, q.
    + now exists (y :: p), m, q.
Qed.

Lemma precedes_In : forall (A : Type) (a b : A) l,
  precedes a b l -> In a l /\ In b l.
Proof.
  intros A a b l (p & m & q & ->); split;
    repeat (rewrite in_app_iff; simpl); auto.
Qed.

Lemma In_insert_desc : forall (x y : K * Z) l,
  In y (insert_desc x l) <-> y = x \/ In y l.
Proof.
  induction l as [|z l IH]; simpl; [intuition|].
  destruct (snd x <? snd z); simpl; [rewrite IH|]; intuition.
Qed.

Lemma In_sorted_desc : forall (y : K * Z) l,
  In y (sorted_desc l) <-> In y l.
Proof.
  induction l as [|z l IH]; simpl; [tauto|].
  rewrite In_insert_desc, IH; intuition.
Qed.

Lemma insert_desc_perm : forall (x : K * Z) l,
  Permutation (insert_desc x l) (x :: l).
Proof.
  induction l as [|z l IH]; simpl; auto.
  destruct (snd x <? snd z); auto.
  rewrite IH; apply perm_swap.
Qed.

Lemma sorted_desc_perm : forall l : list (K * Z),
  Permutation (sorted_desc l) l.
Proof.
  induction l as [|z l IH]; simpl; auto.
  rewrite insert_desc_perm; auto.
Qed.

Lemma insert_desc_sorted : forall (x : K * Z) l,
  StronglySorted count_ge l -> StronglySorted count_ge (insert_desc x l).
Proof.
  induction l as [|z l IH]; simpl; intros Hs.
  - repeat constructor.
  - inversion Hs as [|? ? Hs' Hz]; subst.
    destruct (snd x <? snd z) eqn:E.
    + apply Z.ltb_lt in E; constructor; auto.
      rewrite Forall_forall in *; intros y Hy.
      apply In_insert_desc in Hy as [->|Hy]; auto.
      unfold count_ge; lia.
    + apply Z.ltb_ge in E; constructor; auto.
      constructor; [exact E|].
      rewrite Forall_forall in *; intros y Hy.
      specialize (Hz y Hy); unfold count_ge in *; lia.
Qed.

Lemma sorted_desc_sorted : forall l : list (K * Z),
  StronglySorted count_ge (sorted_desc l).
Proof.
  induction l as [|z l IH]; simpl; [constructor|].
  now apply insert_desc_sorted.
Qed.

Lemma insert_desc_precedes : forall (x a b : K * Z) l,
  precedes a b (insert_desc x l) ->
  precedes a b l \/ (a = x /\ In b l)
  \/ (b = x /\ In a l /\ snd x < snd a).
Proof.
  induction l as [|z l IH]; simpl.
  - intros (p & m & q & H).
    apply (f_equal (@List.length _)) in H.
    rewrite length_app in H; simpl in H; rewrite length_app in H.
    simpl in H; lia.
  - destruct (snd x <? snd z) eqn:E.
    + apply Z.ltb_lt in E.
      rewrite !precedes_cons.
      intros [[-> Hb]|H].
      * apply In_insert_desc in Hb as [->|Hb]; auto.
        right; right; simpl; auto.
      * destruct (IH H) as [H'|[[-> Hb]|(-> & Ha & Hlt)]]; simpl; auto.
        right; right; auto.
    + rewrite precedes_cons; simpl; intros [[-> Hb]|H]; auto.
Qed.

(** The sort is stable: entries with equal counts keep their order. *)
Lemma sorted_desc_stable : forall (a b : K * Z) l,
  precedes a b (sorted_desc l) -> snd a = snd b -> precedes a b l.
Proof.
  induction l as [|z l IH]; simpl; intros H E.
  - destruct H as (p & m & q & H); destruct p; discriminate.
  - apply precedes_cons.
    destruct (insert_desc_precedes _ _ _ _ H)
      as [H'|[[-> Hb]|(-> & Ha & Hlt)]]; auto.
    + left; split; auto; now apply In_sorted_desc.
    + lia.
Qed.

End CounterFacts.

(* ------------------------------------------------------------------ *)
(** ** The loops as tallies *)

Section Loops.

Lemma count_browser_bucket : forall c e,
  count_browser c e = incr String.eqb (agent_bucket (browser e)) c.
Proof.
  intros c e; unfold count_browser, agent_bucket; cbv zeta.
  destruct (found firefox_regex (browser e)); auto.
  destruct (found chrome_regex (browser e)); auto.
  destruct (found ie_regex (browser e)); auto.
  destruct (found safari_regex (browser e)); auto.
Qed.

Lemma browser_tally_seq : forall data,
  browser_tally data = tally String.eqb (bucket_seq data).
Proof.
  intros data; unfold browser_tally, tally, bucket_seq.
  generalize (@nil (string * Z)).
  induction data as [|e data IH]; intros c; simpl; auto.
  now rewrite count_browser_bucket, IH.
Qed.

Lemma hour_tally_seq : forall data,
  hour_tally data = tally Z.eqb (hour_seq data).
Proof.
  intros data; unfold hour_tally, tally, hour_seq.
  generalize (@nil (Z * Z)).
  induction data as [|e data IH]; intros c; simpl; auto.
  rewrite fold_left_app, <- IH; unfold count_hour at 2.
  now destruct (Strptime.strptime (datetime e)).
Qed.

Lemma agent_bucket_in : forall ua, In (agent_bucket ua) buckets.
Proof.
  intros ua; unfold agent_bucket, buckets.
  destruct (found firefox_regex ua); [simpl; auto|].
  destruct (found chrome_regex ua); [simpl; auto|].
  destruct (found ie_regex ua); [simpl; auto|].
  destruct (found safari_regex ua && _); simpl; auto 6.
Qed.

Lemma bucket_seq_length : forall data,
  List.length (bucket_seq data) = List.length data.
Proof. intros; apply length_map. Qed.

Lemma tally_keys_buckets : forall data l,
  In l (keys (browser_tally data)) -> In l buckets.
Proof.
  intros data l Hl; rewrite browser_tally_seq in Hl.
  apply (proj1 (keys_tally_In String.eqb String.eqb_eq _ _)) in Hl.
  unfold bucket_seq in Hl.
  destruct (proj1 (in_map_iff _ _ _) Hl) as (e & <- & _).
  apply agent_bucket_in.
Qed.

Lemma most_popular_entry : forall data,
  data <> [] ->
  exists p q,
    browser_tally data = p ++ find_most_popular_browser data :: q
    /\ (forall y, In y p -> snd y < snd (find_most_popular_browser data))
    /\ (forall y, In y q -> snd y <= snd (find_most_popular_browser data)).
Proof.
  intros data Hne; unfold find_most_popular_browser.
  destruct (browser_tally data) as [|x l] eqn:E.
  - exfalso; apply Hne.
    pose proof (total_tally String.eqb (bucket_seq data)) as Ht.
    rewrite <- browser_tally_seq, E, bucket_seq_length in Ht.
    destruct data; [reflexivity|discriminate].
  - simpl; apply max_by_count_first.
Qed.

End Loops.

(* ------------------------------------------------------------------ *)
(** ** Properties of the agent classifier *)

(** C1.  A user agent is classified by the first rule that applies, in the
    order Firefox token, Chrome token, Internet Explorer token, Safari
    token, and Other when none applies; so text with both a Chrome and a
    Safari token is never Safari, and is Chrome unless the Firefox rule
    comes first.  Every record is counted in the bucket so chosen. *)
Theorem agent_precedence : forall ua : str,
  (firefox_token ua -> agent_bucket ua = "Firefox"%string)
  /\ (~ firefox_token ua -> chrome_token ua ->
      agent_bucket ua = "Chrome"%string)
  /\ (~ firefox_token ua -> ~ chrome_token ua -> ie_token ua ->
      agent_bucket ua = "Internet Explorer"%string)
  /\ (~ firefox_token ua -> ~ chrome_token ua -> ~ ie_token ua ->
      safari_token ua -> agent_bucket ua = "Safari"%string)
  /\ (~ firefox_token ua -> ~ chrome_token ua -> ~ ie_token ua ->
      ~ safari_token ua -> agent_bucket ua = "Other"%string)
  /\ (chrome_token ua -> safari_token ua ->
      agent_bucket ua <> "Safari"%string
      /\ (~ firefox_token ua -> agent_bucket ua = "Chrome"%string))
  /\ (forall c e,
        count_browser c e
        = incr String.eqb (agent_bucket (browser e)) c).
Proof.
  intros ua.
  pose proof (found_firefox ua) as HF.
  pose proof (found_chrome ua) as HC.
  pose proof (found_ie ua) as HI.
  pose proof (found_safari ua) as HS.
  unfold agent_bucket.
  destruct (found firefox_regex ua), (found chrome_regex ua),
    (found ie_regex ua), (found safari_regex ua); simpl;
    repeat split; intros;
    try reflexivity; try discriminate;
    try apply count_browser_bucket;
    try (exfalso; intuition congruence).
Qed.

(** C9.  The classifier with the Chrome test inside the Safari rule and the
    plain else-if chain without it give the same label on every user agent,
    hence the same tally and the same most popular browser. *)
Theorem flat_chain_same : forall ua : str,
  agent_bucket ua = agent_bucket_flat ua
  /\ (forall c e, count_browser c e = count_browser_flat c e)
  /\ (forall data,
        find_most_popular_browser data
        = find_most_popular_browser_flat data).
Proof.
  assert (forall s, agent_bucket s = agent_bucket_flat s) as Hb.
  { intros s; unfold agent_bucket, agent_bucket_flat.
    destruct (found firefox_regex s); auto.
    destruct (found chrome_regex s); auto.
    destruct (found ie_regex s); auto.
    now rewrite andb_true_r. }
  assert (forall c e, count_browser c e = count_browser_flat c e) as Hc.
  { intros c e; unfold count_browser_flat.
    now rewrite count_browser_bucket, Hb. }
  intros ua; repeat split; auto.
  intros data; unfold find_most_popular_browser,
    find_most_popular_browser_flat, browser_tally.
  replace (fold_left count_browser_flat data [])
    with (fold_left count_browser data []); auto.
  generalize (@nil (string * Z)).
  induction data as [|e data IH]; intros c; simpl; auto.
  now rewrite Hc, IH.
Qed.

(** C10.  Every record adds one to exactly one of the five buckets, so the
    counts sum to the number of records; for a non-empty list the most
    popular label is one of the five (never "None") and its count lies
    between 1 and the number of records. *)
Theorem one_bucket_per_record : forall data : list log_entry,
  (forall c e,
      exists l, In l buckets
                /\ count_browser c e = incr String.eqb l c
                /\ total (count_browser c e) = total c + 1
                /\ (forall l', l' <> l ->
                      get String.eqb l' (count_browser c e)
                      = get String.eqb l' c))
  /\ total (browser_tally data) = Z.of_nat (List.length data)
  /\ (forall l, In l (keys (browser_tally data)) -> In l buckets)
  /\ (data <> [] ->
      In (fst (find_most_popular_browser data)) buckets
      /\ String.eqb (fst (find_most_popular_browser data)) "None" = false
      /\ 1 <= snd (find_most_popular_browser data)
           <= Z.of_nat (List.length data)).
Proof.
  intros data; repeat split.
  - intros c e; exists (agent_bucket (browser e)).
    rewrite count_browser_bucket; repeat split.
    + apply agent_bucket_in.
    + apply total_incr.
    + intros l' Hl'; rewrite (get_incr String.eqb String.eqb_eq).
      destruct (String.eqb_spec (agent_bucket (browser e)) l');
        [congruence|lia].
  - rewrite browser_tally_seq, total_tally, bucket_seq_length; reflexivity.
  - apply tally_keys_buckets.
  - destruct (most_popular_entry data H) as (p & q & E & _).
    apply (tally_keys_buckets data); rewrite E.
    unfold keys; rewrite map_app, in_app_iff; simpl; auto.
  - destruct (most_popular_entry data H) as (p & q & E & _).
    assert (In (fst (find_most_popular_browser data)) buckets) as Hb.
    { apply (tally_keys_buckets data); rewrite E.
      unfold keys; rewrite map_app, in_app_iff; simpl; auto. }
    unfold buckets in Hb; simpl in Hb.
    destruct Hb as [<-|[<-|[<-|[<-|[<-|[]]]]]]; reflexivity.
  - destruct (most_popular_entry data H) as (p & q & E & _).
    destruct (find_most_popular_browser data) as [l n]; simpl.
    apply (tally_entry String.eqb String.eqb_eq l n (bucket_seq data)).
    rewrite <- browser_tally_seq, E, in_app_iff; simpl; auto.
  - destruct (most_popular_entry data H) as (p & q & E & _).
    destruct (find_most_popular_browser data) as [l n]; simpl.
    assert (In (l, n) (tally String.eqb (bucket_seq data))) as Hin.
    { rewrite <- browser_tally_seq, E, in_app_iff; simpl; auto. }
    apply (tally_entry String.eqb String.eqb_eq) in Hin as [-> _].
    rewrite <- bucket_seq_length; apply occurrences_le_length.
Qed.

(** C3.  On the empty list the summary is ("None", 0).  On any other list
    it is a bucket with its number of hits, no bucket has more hits, and
    every other bucket with as many hits was first hit later in the scan. *)
Theorem most_popular_first_max : forall data : list log_entry,
  find_most_popular_browser [] = ("None"%string, 0)
  /\ (data <> [] ->
      snd (find_most_popular_browser data)
      = occurrences String.eqb (fst (find_most_popular_browser data))
                    (bucket_seq data)
      /\ (forall l,
            occurrences String.eqb l (bucket_seq data)
            <= snd (find_most_popular_browser data))
      /\ (forall l,
            l <> fst (find_most_popular_browser data) ->
            occurrences String.eqb l (bucket_seq data)
            = snd (find_most_popular_browser data) ->
            hit_before (fst (find_most_popular_browser data)) l
                       (bucket_seq data))).
Proof.
  intros data; split; [reflexivity|]; intros Hne.
  destruct (most_popular_entry data Hne) as (p & q & E & Hp & Hq).
  destruct (find_most_popular_browser data) as [b n]; simpl in *.
  assert (In (b, n) (tally String.eqb (bucket_seq data))) as Hin.
  { rewrite <- browser_tally_seq, E, in_app_iff; simpl; auto. }
  destruct (tally_entry String.eqb String.eqb_eq _ _ _ Hin) as [Hn Hpos].
  assert (forall l, In l (bucket_seq data) ->
                    In (l, occurrences String.eqb l (bucket_seq data))
                       (p ++ (b, n) :: q)) as Hent.
  { intros l Hl; rewrite <- E, browser_tally_seq.
    now apply tally_entry_of_key; [apply String.eqb_eq|]. }
  repeat split; auto.
  - intros l.
    destruct (Z.le_gt_cases (occurrences String.eqb l (bucket_seq data)) 0)
      as [H0|H1]; [lia|].
    assert (In l (bucket_seq data)) as Hl.
    { apply (occurrences_pos String.eqb String.eqb_eq); lia. }
    apply Hent, in_app_iff in Hl as [Hl|[Hl|Hl]].
    + specialize (Hp _ Hl); simpl in Hp; lia.
    + injection Hl as _ <-; lia.
    + specialize (Hq _ Hl); simpl in Hq; lia.
  - intros l Hl Hocc.
    assert (In l (bucket_seq data)) as Hs.
    { apply (occurrences_pos String.eqb String.eqb_eq); lia. }
    apply Hent, in_app_iff in Hs as [Hs|[Hs|Hs]].
    + specialize (Hp _ Hs); simpl in Hp; lia.
    + injection Hs as <- _; contradiction.
    + apply (keys_tally_order String.eqb String.eqb_eq _ b l
               (keys p) (keys q)).
      * rewrite <- browser_tally_seq, E; unfold keys.
        now rewrite map_app.
      * unfold keys; apply in_map_iff.
        now exists (l, occurrences String.eqb l (bucket_seq data)).
Qed.

(* ------------------------------------------------------------------ *)
(** ** Properties of the hourly aggregation *)

(** C4.  The hourly report is sorted by count, largest first; of two hours
    with the same count the one seen first in the scan comes first; and an
    hour is listed exactly when some record has it, with its number of
    hits, once. *)
Theorem hours_sorted_stable : forall data : list log_entry,
  StronglySorted (fun a b => snd b <= snd a) (analyze_hits_by_hour data)
  /\ (forall a b,
        precedes a b (analyze_hits_by_hour data) -> snd a = snd b ->
        hit_before (fst a) (fst b) (hour_seq data))
  /\ (forall h c,
        In (h, c) (analyze_hits_by_hour data)
        <-> c = occurrences Z.eqb h (hour_seq data) /\ 1 <= c)
  /\ NoDup (map fst (analyze_hits_by_hour data)).
Proof.
  intros data; unfold analyze_hits_by_hour; rewrite hour_tally_seq.
  repeat split.
  - apply (sorted_desc_sorted (K := Z)).
  - intros a b Hpre Heq.
    apply sorted_desc_stable in Hpre; auto.
    destruct Hpre as (p & m & q & E).
    apply (keys_tally_order Z.eqb Z.eqb_eq _ (fst a) (fst b)
             (keys p) (keys (m ++ b :: q))).
    + rewrite E; unfold keys; now rewrite map_app.
    + unfold keys; rewrite map_app, in_app_iff; simpl; auto.
  - apply (proj1 (In_sorted_desc _ _)) in H.
    now apply (tally_entry Z.eqb Z.eqb_eq) in H.
  - apply (proj1 (In_sorted_desc _ _)) in H.
    now apply (tally_entry Z.eqb Z.eqb_eq) in H.
  - intros [-> Hpos]; apply In_sorted_desc.
    apply tally_entry_of_key; [apply Z.eqb_eq|].
    now apply (occurrences_pos Z.eqb Z.eqb_eq).
  - apply (Permutation_NoDup
             (l := keys (tally Z.eqb (hour_seq data)))).
    + unfold keys; apply Permutation_map, Permutation_sym.
      apply sorted_desc_perm.
    + apply keys_tally_NoDup, Z.eqb_eq.
Qed.

(* ------------------------------------------------------------------ *)
(** ** Rounding to the nearest float *)

Module FloatFacts.
Import Float.

Lemma pow2_pos : forall e, (0 < pow2 e)%Q.
Proof. intros e. apply Qpower_0_lt. reflexivity. Qed.

Lemma pow2_add : forall a b, (pow2 (a + b) == pow2 a * pow2 b)%Q.
Proof. intros a b. apply Qpower_plus. discriminate. Qed.

Lemma pow2_le : forall a b, a <= b -> (pow2 a <= pow2 b)%Q.
Proof. intros a b H. apply Qpower_le_compat_l; [exact H | discriminate]. Qed.

Lemma pow2_lt : forall a b, a < b -> (pow2 a < pow2 b)%Q.
Proof. intros a b H. apply Qpower_lt_compat_l; [exact H | reflexivity]. Qed.

Lemma pow2_lt_inv : forall a b, (pow2 a < pow2 b)%Q -> a < b.
Proof. intros a b H. apply (Qpower_lt_compat_l_inv 2); [exact H | reflexivity]. Qed.

Lemma pow2_Z : forall e, 0 <= e -> (pow2 e == inject_Z (2 ^ e))%Q.
Proof. intros e H. symmetry. apply (Zpower_Qpower 2 e H). Qed.

Lemma ilog2_spec : forall x, (0 < x)%Q ->
  (pow2 (ilog2 x) <= x)%Q /\ (x < pow2 (ilog2 x + 1))%Q.
Proof.
  intros [n d] Hx.
  assert (Hn : 0 < n) by (unfold Qlt in Hx; simpl in Hx; lia).
  assert (Habs : Qabs (n # d) = (n # d)).
  { unfold Qabs. rewrite Z.abs_eq by lia. reflexivity. }
  unfold ilog2. rewrite Habs. cbn [Qnum Qden]. rewrite Z.abs_eq by lia.
  set (ln := Z.log2 n). set (ld := Z.log2 (Z.pos d)).
  destruct (Z.log2_spec n Hn) as [Hn1 Hn2]. fold ln in Hn1, Hn2.
  destruct (Z.log2_spec (Z.pos d) eq_refl) as [Hd1 Hd2]. fold ld in Hd1, Hd2.
  assert (Hln : 0 <= ln) by apply Z.log2_nonneg.
  assert (Hld : 0 <= ld) by apply Z.log2_nonneg.
  assert (Qn1 : (pow2 ln <= inject_Z n)%Q).
  { rewrite pow2_Z by lia. rewrite <- Zle_Qle. exact Hn1. }
  assert (Qn2 : (inject_Z n < pow2 (ln + 1))%Q).
  { rewrite pow2_Z by lia. rewrite <- Zlt_Qlt. exact Hn2. }
  assert (Qd1 : (pow2 ld <= inject_Z (Z.pos d))%Q).
  { rewrite pow2_Z by lia. rewrite <- Zle_Qle. exact Hd1. }
  assert (Qd2 : (inject_Z (Z.pos d) < pow2 (ld + 1))%Q).
  { rewrite pow2_Z by lia. rewrite <- Zlt_Qlt. exact Hd2. }
  assert (Hd : (0 < inject_Z (Z.pos d))%Q) by reflexivity.
  assert (Hq : (n # d == inject_Z n / inject_Z (Z.pos d))%Q) by apply Qmake_Qdiv.
  assert (Hup : (n # d < pow2 (ln - ld + 1))%Q).
  { rewrite Hq. apply Qlt_shift_div_r; [exact Hd|].
    assert (E : (pow2 (ln + 1) == pow2 (ln - ld + 1) * pow2 ld)%Q).
    { rewrite <- pow2_add. replace (ln - ld + 1 + ld) with (ln + 1) by lia. reflexivity. }
    pose proof (pow2_pos (ln - ld + 1)). pose proof (pow2_pos ld).
    nra. }
  assert (Hlo : (pow2 (ln - ld - 1) <= n # d)%Q).
  { rewrite Hq. apply Qle_shift_div_l; [exact Hd|].
    assert (E : (pow2 ln == pow2 (ln - ld - 1) * pow2 (ld + 1))%Q).
    { rewrite <- pow2_add. replace (ln - ld - 1 + (ld + 1)) with ln by lia. reflexivity. }
    pose proof (pow2_pos (ln - ld - 1)). pose proof (pow2_pos (ld + 1)).
    nra. }
  destruct (Qle_bool (pow2 (ln - ld)) (n # d)) eqn:E.
  - apply Qle_bool_iff in E. split; assumption.
  - split.
    + exact Hlo.
    + replace (ln - ld - 1 + 1) with (ln - ld) by lia.
      apply Qnot_le_lt. intros H. apply Qle_bool_iff in H. congruence.
Qed.

Lemma ilog2_mono : forall x y, (0 < x)%Q -> (x <= y)%Q -> ilog2 x <= ilog2 y.
Proof.
  intros x y Hx Hxy.
  destruct (ilog2_spec x Hx) as [Hx1 _].
  assert (Hy : (0 < y)%Q) by lra.
  destruct (ilog2_spec y Hy) as [_ Hy2].
  assert (H : (pow2 (ilog2 x) < pow2 (ilog2 y + 1))%Q) by lra.
  apply pow2_lt_inv in H. lia.
Qed.

Lemma rne_Z : forall n, rne (inject_Z n) = n.
Proof.
  intros n. unfold rne. rewrite Qfloor_Z.
  destruct (Qcompare_spec (inject_Z n - inject_Z n) (1 # 2)) as [H|H|H];
    [exfalso; lra | reflexivity | exfalso; lra].
Qed.

Lemma rne_bounds : forall q, Qfloor q <= rne q <= Qfloor q + 1.
Proof.
  intros q. unfold rne.
  destruct (q - inject_Z (Qfloor q) ?= 1 # 2)%Q; [destruct (Z.even (Qfloor q))| |]; lia.
Qed.

Lemma rne_mono : forall p q, (p <= q)%Q -> rne p <= rne q.
Proof.
  intros p q H.
  pose proof (Qfloor_resp_le p q H) as Hf.
  destruct (Z.eq_dec (Qfloor p) (Qfloor q)) as [E|E].
  - unfold rne. rewrite E.
    destruct (Qcompare_spec (p - inject_Z (Qfloor q)) (1 # 2)) as [Hp|Hp|Hp];
    destruct (Qcompare_spec (q - inject_Z (Qfloor q)) (1 # 2)) as [Hq|Hq|Hq];
    try destruct (Z.even (Qfloor q)); try lia; exfalso; lra.
  - pose proof (rne_bounds p). pose proof (rne_bounds q). lia.
Qed.

Lemma scale_mono : forall x y, (0 < x)%Q -> (x <= y)%Q -> scale x <= scale y.
Proof. intros x y Hx Hxy. pose proof (ilog2_mono x y Hx Hxy). unfold scale. lia. Qed.

Lemma round64_pos : forall x, (0 < x)%Q ->
  (round64 x == inject_Z (rne (x / pow2 (scale x))) * pow2 (scale x))%Q.
Proof.
  intros [n d] Hx. unfold round64.
  assert (Hn : 0 < n) by (unfold Qlt in Hx; simpl in Hx; lia).
  cbn [Qnum]. destruct (n =? 0) eqn:E; [lia|]. apply Qred_correct.
Qed.

Lemma round64_zero : forall x, (x == 0)%Q -> round64 x = 0%Q.
Proof.
  intros [n d] Hx. unfold round64.
  assert (Hn : n = 0) by (unfold Qeq in Hx; simpl in Hx; lia).
  cbn [Qnum]. subst n. reflexivity.
Qed.

Lemma round64_nonneg : forall x, (0 <= x)%Q -> (0 <= round64 x)%Q.
Proof.
  intros x Hx. destruct (Qle_lt_or_eq _ _ Hx) as [H|H].
  - rewrite (round64_pos x H).
    pose proof (pow2_pos (scale x)) as Hp.
    assert (Hq : (0 <= x / pow2 (scale x))%Q).
    { apply Qle_shift_div_l; [exact Hp | lra]. }
    pose proof (rne_mono _ _ Hq) as Hr. change 0%Q with (inject_Z 0) in Hr.
    rewrite rne_Z in Hr. rewrite Zle_Qle in Hr.
    change (inject_Z 0) with 0%Q in Hr. nra.
  - rewrite round64_zero by (symmetry; exact H). lra.
Qed.

Lemma round64_mono_pos : forall x y, (0 < x)%Q -> (x <= y)%Q ->
  (round64 x <= round64 y)%Q.
Proof.
  intros x y Hx Hxy.
  assert (Hy : (0 < y)%Q) by lra.
  rewrite (round64_pos x Hx), (round64_pos y Hy).
  pose proof (scale_mono x y Hx Hxy) as Hs.
  pose proof (pow2_pos (scale x)) as Hpx.
  pose proof (pow2_pos (scale y)) as Hpy.
  destruct (Z.eq_dec (scale x) (scale y)) as [E|E].
  - rewrite E in *.
    assert (Hq : (x / pow2 (scale y) <= y / pow2 (scale y))%Q).
    { apply Qle_shift_div_l; [exact Hpy|].
      unfold Qdiv. rewrite <- Qmult_assoc, (Qmult_comm (/ _)), Qmult_inv_r by lra. lra. }
    apply rne_mono in Hq. rewrite Zle_Qle in Hq. nra.
  - assert (Hsy : scale y = ilog2 y - 52) by (unfold scale in *; lia).
    destruct (ilog2_spec x Hx) as [_ Hx2].
    destruct (ilog2_spec y Hy) as [Hy1 _].
    assert (Hexy : ilog2 x + 1 <= ilog2 y) by (unfold scale in *; lia).
    pose proof (pow2_le _ _ Hexy) as Hle.
    (* the larger value rounds to at least 2^52 units *)
    assert (HB : (inject_Z (2 ^ 52) <= inject_Z (rne (y / pow2 (scale y))))%Q).
    { rewrite <- Zle_Qle. rewrite <- (rne_Z (2 ^ 52)). apply rne_mono.
      apply Qle_shift_div_l; [exact Hpy|].
      rewrite <- pow2_Z by lia. rewrite <- pow2_add.
      replace (52 + scale y) with (ilog2 y) by lia. exact Hy1. }
    (* the smaller one to at most 2^(e_y - s_x) units *)
    assert (HA : (inject_Z (rne (x / pow2 (scale x))) <= inject_Z (2 ^ (ilog2 y - scale x)))%Q).
    { rewrite <- Zle_Qle. rewrite <- (rne_Z (2 ^ (ilog2 y - scale x))). apply rne_mono.
      apply Qle_shift_div_r; [exact Hpx|].
      rewrite <- pow2_Z by lia. rewrite <- pow2_add.
      replace (ilog2 y - scale x + scale x) with (ilog2 y) by lia. lra. }
    assert (E1 : (inject_Z (2 ^ (ilog2 y - scale x)) * pow2 (scale x) == pow2 (ilog2 y))%Q).
    { rewrite <- pow2_Z by lia. rewrite <- pow2_add.
      replace (ilog2 y - scale x + scale x) with (ilog2 y) by lia. reflexivity. }
    assert (E2 : (inject_Z (2 ^ 52) * pow2 (scale y) == pow2 (ilog2 y))%Q).
    { rewrite <- pow2_Z by lia. rewrite <- pow2_add.
      replace (52 + scale y) with (ilog2 y) by lia. reflexivity. }
    nra.
Qed.

Lemma round64_mono : forall x y, (0 <= x)%Q -> (x <= y)%Q ->
  (round64 x <= round64 y)%Q.
Proof.
  intros x y Hx Hxy. destruct (Qle_lt_or_eq _ _ Hx) as [H|H].
  - apply round64_mono_pos; assumption.
  - rewrite (round64_zero x) by (symmetry; exact H).
    apply round64_nonneg. lra.
Qed.

Lemma round64_eq : forall x y, (0 <= x)%Q -> (x == y)%Q ->
  (round64 x == round64 y)%Q.
Proof.
  intros x y Hx E. apply Qle_antisym; apply round64_mono; lra.
Qed.

Lemma rne_near : forall q,
  (q - (1 # 2) <= inject_Z (rne q))%Q /\ (inject_Z (rne q) <= q + (1 # 2))%Q.
Proof.
  intros q. unfold rne.
  pose proof (Qfloor_le q) as H1. pose proof (Qlt_floor q) as H2.
  rewrite inject_Z_plus in H2. change (inject_Z 1) with 1%Q in H2.
  destruct (Qcompare_spec (q - inject_Z (Qfloor q)) (1 # 2)) as [H|H|H];
    [destruct (Z.even (Qfloor q))| |];
    rewrite ?inject_Z_plus; change (inject_Z 1) with 1%Q; split; lra.
Qed.

Lemma round64_near : forall x, (pow2 (-1022) <= x)%Q ->
  (x - x * pow2 (-53) <= round64 x)%Q /\ (round64 x <= x + x * pow2 (-53))%Q.
Proof.
  intros x Hx.
  pose proof (pow2_pos (-1022)) as Hp.
  assert (H0 : (0 < x)%Q) by lra.
  destruct (ilog2_spec x H0) as [He1 He2].
  assert (He : -1022 <= ilog2 x).
  { assert (H : (pow2 (-1022) < pow2 (ilog2 x + 1))%Q) by lra.
    apply pow2_lt_inv in H. lia. }
  assert (Hs : scale x = ilog2 x - 52) by (unfold scale; lia).
  rewrite (round64_pos x H0).
  pose proof (pow2_pos (scale x)) as Hps.
  destruct (rne_near (x / pow2 (scale x))) as [N1 N2].
  assert (Ex : (x / pow2 (scale x) * pow2 (scale x) == x)%Q).
  { unfold Qdiv. rewrite <- Qmult_assoc, (Qmult_comm (/ _)), Qmult_inv_r by lra. ring. }
  assert (Eh : ((1 # 2) * pow2 (scale x) == pow2 (ilog2 x) * pow2 (-53))%Q).
  { change (1 # 2)%Q with (pow2 (-1)). rewrite <- !pow2_add.
    replace (-1 + scale x) with (ilog2 x + -53) by lia. reflexivity. }
  pose proof (pow2_pos (-53)) as Hu.
  pose proof (pow2_pos (ilog2 x)) as Hpe.
  set (R := inject_Z (rne (x / pow2 (scale x)))) in *.
  set (q := (x / pow2 (scale x))%Q) in *.
  set (P := pow2 (scale x)) in *.
  assert (B1 : ((q - (1 # 2)) * P <= R * P)%Q) by (apply Qmult_le_compat_r; lra).
  assert (B2 : (R * P <= (q + (1 # 2)) * P)%Q) by (apply Qmult_le_compat_r; lra).
  assert (B3 : (pow2 (ilog2 x) * pow2 (-53) <= x * pow2 (-53))%Q)
    by (apply Qmult_le_compat_r; lra).
  split; lra.
Qed.

End FloatFacts.

(* ------------------------------------------------------------------ *)
(** ** Properties of the image classifier *)

Section ImageCount.

Import Float FloatFacts.

Lemma count_image_fold : forall data n,
  fold_left count_image data n
  = n + Z.of_nat (List.length (filter is_image data)).
Proof.
  induction data as [|e data IH]; intros n; simpl; [lia|].
  rewrite IH; unfold count_image.
  destruct (is_image e); simpl List.length; lia.
Qed.

Lemma image_count_filter : forall data,
  fst (find_image_requests data)
  = Z.of_nat (List.length (filter is_image data)).
Proof. intros; simpl; now rewrite count_image_fold. Qed.

Lemma of_int_100 : of_int 100 = inject_Z 100.
Proof. vm_compute. reflexivity. Qed.

Lemma round64_1 : round64 1 = 1%Q.
Proof. vm_compute. reflexivity. Qed.

Lemma round64_100 : round64 (inject_Z 100) = inject_Z 100.
Proof. vm_compute. reflexivity. Qed.

Lemma ratio_bounds : forall c t : Z, 0 <= c <= t -> 0 < t ->
  (0 <= inject_Z c / inject_Z t <= 1)%Q.
Proof.
  intros c t [Hc Hct] Ht.
  assert (Hq : (0 < inject_Z t)%Q) by (rewrite (Zlt_Qlt 0 t) in Ht; exact Ht).
  rewrite (Zle_Qle 0 c) in Hc. rewrite Zle_Qle in Hct.
  change (inject_Z 0) with 0%Q in *.
  split.
  - apply Qle_shift_div_l; [exact Hq | lra].
  - apply Qle_shift_div_r; [exact Hq | lra].
Qed.

Lemma true_div_bounds : forall c t : Z, 0 <= c <= t -> 0 < t ->
  (0 <= true_div c t <= 1)%Q.
Proof.
  intros c t Hc Ht. destruct (ratio_bounds c t Hc Ht) as [H0 H1]. unfold true_div.
  split.
  - apply round64_nonneg, H0.
  - rewrite <- round64_1. apply round64_mono; assumption.
Qed.

Lemma share_bounds : forall c t : Z, 0 <= c <= t -> 0 < t ->
  (0 <= mul (true_div c t) (of_int 100) <= inject_Z 100)%Q.
Proof.
  intros c t Hc Ht. destruct (true_div_bounds c t Hc Ht) as [H0 H1].
  unfold mul. rewrite of_int_100. change (inject_Z 100) with 100%Q.
  split.
  - apply round64_nonneg. nra.
  - change 100%Q with (inject_Z 100) at 2. rewrite <- round64_100.
    change (inject_Z 100) with 100%Q.
    apply round64_mono; nra.
Qed.

(** Below 2^53 records the ratio of a proper part rounds below 1, and its
    hundredfold below 100; a part that is not empty stays above 0. *)
Lemma share_full : forall c t : Z, 0 <= c <= t -> 0 < t <= 2 ^ 53 ->
  ((mul (true_div c t) (of_int 100) == inject_Z 100)%Q <-> c = t).
Proof.
  intros c t Hc [Ht Hbig].
  assert (Hq : (0 < inject_Z t)%Q) by (rewrite (Zlt_Qlt 0 t) in Ht; exact Ht).
  destruct (ratio_bounds c t Hc Ht) as [H0 H1].
  unfold mul. rewrite of_int_100. change (inject_Z 100) with 100%Q.
  split.
  - intros E. destruct (Z.eq_dec c t) as [|Hne]; [assumption|exfalso].
    assert (Hx : (inject_Z c / inject_Z t <= 1 - pow2 (-53))%Q).
    { apply Qle_shift_div_r; [exact Hq|].
      assert (Hc1 : c + 1 <= t) by lia.
      rewrite Zle_Qle in Hc1. rewrite Zle_Qle in Hbig.
      rewrite inject_Z_plus in Hc1. change (inject_Z 1) with 1%Q in Hc1.
      assert (E53 : (inject_Z (2 ^ 53) * pow2 (-53) == 1)%Q) by reflexivity.
      pose proof (pow2_pos (-53)) as Hu.
      assert (Hm : (inject_Z t * pow2 (-53) <= inject_Z (2 ^ 53) * pow2 (-53))%Q)
        by (apply Qmult_le_compat_r; lra).
      lra. }
    assert (Hr : (true_div c t <= 1 - pow2 (-53))%Q).
    { unfold true_div.
      replace (1 - pow2 (-53))%Q with (round64 (1 - pow2 (-53)))
        by (vm_compute; reflexivity).
      replace (round64 (round64 (1 - pow2 (-53)))) with (round64 (1 - pow2 (-53)))
        by (vm_compute; reflexivity).
      apply round64_mono; assumption. }
    pose proof (proj1 (true_div_bounds c t Hc Ht)) as Hr0.
    assert (Hp : (round64 (true_div c t * 100) <= round64 ((1 - pow2 (-53)) * 100))%Q).
    { apply round64_mono; nra. }
    assert (Hv : (round64 ((1 - pow2 (-53)) * 100) < 100)%Q)
      by (vm_compute; reflexivity).
    lra.
  - intros ->.
    assert (E1 : (inject_Z t / inject_Z t == 1)%Q) by (field; lra).
    assert (E2 : (true_div t t == 1)%Q).
    { unfold true_div. rewrite (round64_eq _ 1%Q H0 E1), round64_1. reflexivity. }
    assert (E3 : (true_div t t * 100 == inject_Z 100)%Q)
      by (rewrite E2; reflexivity).
    rewrite (round64_eq _ (inject_Z 100)), round64_100; [reflexivity| |exact E3].
    rewrite E3; discriminate.
Qed.

Lemma share_none : forall c t : Z, 0 <= c <= t -> 0 < t <= 2 ^ 53 ->
  ((mul (true_div c t) (of_int 100) == 0)%Q <-> c = 0).
Proof.
  intros c t Hc [Ht Hbig].
  assert (Hq : (0 < inject_Z t)%Q) by (rewrite (Zlt_Qlt 0 t) in Ht; exact Ht).
  unfold mul. rewrite of_int_100. change (inject_Z 100) with 100%Q.
  split.
  - intros E. destruct (Z.eq_dec c 0) as [|Hne]; [assumption|exfalso].
    assert (Hx : (pow2 (-53) <= inject_Z c / inject_Z t)%Q).
    { apply Qle_shift_div_l; [exact Hq|].
      assert (Hc1 : 1 <= c) by lia.
      rewrite Zle_Qle in Hc1. rewrite Zle_Qle in Hbig.
      change (inject_Z 1) with 1%Q in Hc1.
      assert (E53 : (inject_Z (2 ^ 53) * pow2 (-53) == 1)%Q) by reflexivity.
      pose proof (pow2_pos (-53)) as Hu.
      assert (Hm : (inject_Z t * pow2 (-53) <= inject_Z (2 ^ 53) * pow2 (-53))%Q)
        by (apply Qmult_le_compat_r; lra).
      lra. }
    assert (Hr : (pow2 (-53) <= true_div c t)%Q).
    { unfold true_div.
      replace (pow2 (-53)) with (round64 (pow2 (-53))) at 1
        by (vm_compute; reflexivity).
      apply round64_mono; [|assumption]. pose proof (pow2_pos (-53)); lra. }
    assert (Hp : (round64 (pow2 (-53) * 100) <= round64 (true_div c t * 100))%Q).
    { pose proof (pow2_pos (-53)). apply round64_mono; nra. }
    assert (Hv : (0 < round64 (pow2 (-53) * 100))%Q) by (vm_compute; reflexivity).
    lra.
  - intros ->.
    assert (E1 : true_div 0 t = 0%Q).
    { unfold true_div. apply round64_zero. unfold Qdiv. ring. }
    rewrite E1. rewrite round64_zero by ring. reflexivity.
Qed.

(** The float percentage stays within two roundings of 100 * c / t. *)
Lemma share_near : forall c t : Z, 0 <= c <= t -> 0 < t <= 2 ^ 53 ->
  let exact := (inject_Z 100 * inject_Z c / inject_Z t)%Q in
  (exact - exact * pow2 (-51) <= mul (true_div c t) (of_int 100))%Q
  /\ (mul (true_div c t) (of_int 100) <= exact + exact * pow2 (-51))%Q.
Proof.
  intros c t Hc [Ht Hbig] exact.
  assert (Hq : (0 < inject_Z t)%Q) by (rewrite (Zlt_Qlt 0 t) in Ht; exact Ht).
  destruct (Z.eq_dec c 0) as [->|Hne].
  - assert (E : (mul (true_div 0 t) (of_int 100) == 0)%Q)
      by (apply share_none; [lia | lia | reflexivity]).
    assert (E0 : (exact == 0)%Q) by (unfold exact, Qdiv; ring).
    rewrite E, E0. split; lra.
  - set (x := (inject_Z c / inject_Z t)%Q).
    assert (Ex : (exact == x * 100)%Q) by (unfold exact, x; field; lra).
    assert (Hx : (pow2 (-53) <= x)%Q).
    { unfold x. apply Qle_shift_div_l; [exact Hq|].
      assert (Hc1 : 1 <= c) by lia.
      rewrite Zle_Qle in Hc1. rewrite Zle_Qle in Hbig.
      change (inject_Z 1) with 1%Q in Hc1.
      assert (E53 : (inject_Z (2 ^ 53) * pow2 (-53) == 1)%Q) by reflexivity.
      pose proof (pow2_pos (-53)) as Hu.
      assert (Hm : (inject_Z t * pow2 (-53) <= inject_Z (2 ^ 53) * pow2 (-53))%Q)
        by (apply Qmult_le_compat_r; lra).
      lra. }
    pose proof (pow2_le (-1022) (-53) ltac:(lia)) as Hlow.
    destruct (round64_near x ltac:(lra)) as [N1 N2].
    change (round64 x) with (true_div c t) in N1, N2.
    set (r := true_div c t) in *.
    pose proof (pow2_pos (-53)) as Hu.
    assert (Hu1 : (pow2 (-53) <= 1 # 2)%Q) by (vm_compute; discriminate).
    assert (Hx0 : (0 < x)%Q) by lra.
    assert (A0 : (x * pow2 (-53) <= x * (1 # 2))%Q)
      by (apply Qmult_le_l; assumption).
    assert (Hr : (pow2 (-1022) <= r * 100)%Q) by lra.
    destruct (round64_near (r * 100) Hr) as [M1 M2].
    unfold mul. rewrite of_int_100. change (inject_Z 100) with 100%Q.
    assert (E51 : (pow2 (-51) == 4 * pow2 (-53))%Q) by reflexivity.
    rewrite Ex, E51.
    set (u := pow2 (-53)) in *. set (p := round64 (r * 100)) in *.
    assert (A1 : (r * u <= (x + x * u) * u)%Q)
      by (apply Qmult_le_compat_r; lra).
    assert (A2 : ((x - x * u) * u <= r * u)%Q)
      by (apply Qmult_le_compat_r; lra).
    assert (A3 : (x * u * u <= x * (1 # 2) * u)%Q)
      by (apply Qmult_le_compat_r; lra).
    split; lra.
Qed.

End ImageCount.

(** C7, as the code has it.  The image count is the number of records with
    an image path, so at most the number of records.  The percentage lies
    between 0 and 100; for a non-empty list it is the float
    [(count / total) * 100], each of the two operations rounded to the
    nearest binary64 value, which for at most 2^53 records is within a
    relative error of 2^-51 of the exact 100 * count / total; for the empty
    list it is exactly 0. *)
Theorem image_share : forall data : list log_entry,
  0 <= fst (find_image_requests data) <= Z.of_nat (List.length data)
  /\ fst (find_image_requests data)
     = Z.of_nat (List.length (filter is_image data))
  /\ (0 <= snd (find_image_requests data) <= inject_Z 100)%Q
  /\ (data <> [] ->
      snd (find_image_requests data)
      = Float.mul (Float.true_div (fst (find_image_requests data))
                                  (Z.of_nat (List.length data)))
                  (Float.of_int 100))
  /\ (data <> [] -> Z.of_nat (List.length data) <= 2 ^ 53 ->
      let exact := exact_share (fst (find_image_requests data))
                               (Z.of_nat (List.length data)) in
      (exact - exact * Float.pow2 (-51) <= snd (find_image_requests data))%Q
      /\ (snd (find_image_requests data)
          <= exact + exact * Float.pow2 (-51))%Q)
  /\ find_image_requests [] = (0, 0%Q).
Proof.
  intros data.
  pose proof (image_count_filter data) as Hc.
  pose proof (filter_length_le is_image data) as Hle.
  assert (data <> [] -> 0 < Z.of_nat (List.length data)) as Hpos
      by (destruct data; [congruence|simpl; lia]).
  split; [lia|]; split; [exact Hc|]; split; [|split; [|split]].
  - unfold find_image_requests; cbv zeta; cbn [snd].
    destruct (0 <? Z.of_nat (List.length data)) eqn:E; [|split; discriminate].
    apply share_bounds; [|now apply Z.ltb_lt].
    rewrite count_image_fold; lia.
  - intros Hne; unfold find_image_requests; cbv zeta; cbn [fst snd].
    now rewrite (proj2 (Z.ltb_lt _ _) (Hpos Hne)).
  - intros Hne Hbig exact; subst exact.
    unfold find_image_requests; cbv zeta; cbn [fst snd].
    rewrite (proj2 (Z.ltb_lt _ _) (Hpos Hne)).
    apply share_near; [rewrite count_image_fold; lia|].
    split; [now apply Hpos | exact Hbig].
  - reflexivity.
Qed.

(** C7, as the claim states it, fails: for seven image requests among a
    hundred records the code returns 7.000000000000001, that is 7 + 2^-50,
    and not 100 * 7 / 100 = 7, which is also what the float expression
    [100 * count / total] gives. *)
Lemma image_share_rounding_counterexample :
  find_image_requests seven_of_hundred
  = (7, 7881299347898369 # 1125899906842624)
  /\ (exact_share (fst (find_image_requests seven_of_hundred))
                  (Z.of_nat (List.length seven_of_hundred))
      < snd (find_image_requests seven_of_hundred))%Q
  /\ (exact_share (fst (find_image_requests seven_of_hundred))
                  (Z.of_nat (List.length seven_of_hundred)) == 7)%Q
  /\ Float.true_div (100 * fst (find_image_requests seven_of_hundred))
                    (Z.of_nat (List.length seven_of_hundred)) = 7%Q.
Proof. repeat split; vm_compute; reflexivity. Qed.

(* ------------------------------------------------------------------ *)
(** ** Records with a timestamp that does not parse *)

(** C6.  A record whose timestamp does not parse leaves the hourly report
    as it is without the record, while the image count and the browser
    tally count it like any record: neither depends on the timestamp. *)
Theorem bad_timestamp_only_hours :
  forall (e : log_entry) (pre post : list log_entry),
    Strptime.strptime (datetime e) = None ->
    analyze_hits_by_hour (pre ++ e :: post)
    = analyze_hits_by_hour (pre ++ post)
    /\ fst (find_image_requests (pre ++ e :: post))
       = fst (find_image_requests (pre ++ post))
         + (if is_image e then 1 else 0)
    /\ (forall l,
          get String.eqb l (browser_tally (pre ++ e :: post))
          = get String.eqb l (browser_tally (pre ++ post))
            + (if String.eqb (agent_bucket (browser e)) l then 1 else 0))
    /\ (forall ts,
          find_image_requests (pre ++ with_datetime ts e :: post)
          = find_image_requests (pre ++ e :: post))
    /\ (forall ts,
          find_most_popular_browser (pre ++ with_datetime ts e :: post)
          = find_most_popular_browser (pre ++ e :: post))
    /\ Strptime.strptime (lit "notadate") = None.
Proof.
  intros e pre post Hbad; repeat split.
  - unfold analyze_hits_by_hour; rewrite !hour_tally_seq.
    unfold hour_seq; rewrite !flat_map_app; simpl.
    now rewrite Hbad.
  - rewrite !image_count_filter, !filter_app; simpl.
    destruct (is_image e); rewrite !length_app; simpl List.length; lia.
  - intros l; rewrite !browser_tally_seq.
    rewrite !(get_tally String.eqb String.eqb_eq).
    unfold bucket_seq; rewrite !map_app, !occurrences_app; simpl.
    destruct (String.eqb _ l); lia.
  - intros ts; unfold find_image_requests.
    rewrite !fold_left_app, !length_app; reflexivity.
  - intros ts; unfold find_most_popular_browser, browser_tally.
    rewrite !fold_left_app; reflexivity.
Qed.

Lemma bad_timestamp_only_hours_witness :
  let e := {| path := lit "a.png"; datetime := lit "notadate";
              browser := lit "Safari/537"; status := lit "200";
              size := lit "1" |} in
  analyze_hits_by_hour ([] ++ e :: []) = analyze_hits_by_hour ([] ++ [])
  /\ fst (find_image_requests ([] ++ e :: []))
     = fst (find_image_requests ([] ++ [])) + (if is_image e then 1 else 0).
Proof.
  intros e.
  destruct (bad_timestamp_only_hours e [] [] eq_refl) as (H1 & H2 & _).
  exact (conj H1 H2).
Defined.

(* ------------------------------------------------------------------ *)
(** ** The parser keeps line boundaries out of the records *)

Section ParserText.

Lemma one_line_rev : forall s, one_line s -> one_line (rev s).
Proof. intros s; apply Forall_rev. Qed.

Lemma splitlines_from_one_line : forall n s cur,
  (List.length s <= n)%nat -> one_line cur ->
  Forall one_line (splitlines_from cur s).
Proof.
  induction n as [|n IH]; intros s cur Hn Hc.
  - destruct s; [|simpl in Hn; lia]; simpl.
    destruct cur; repeat constructor; auto.
    now apply one_line_rev.
  - destruct s as [|c s]; simpl.
    + destruct cur; repeat constructor; auto; now apply one_line_rev.
    + simpl in Hn; destruct (is_linebreak c) eqn:Hb.
      * destruct s as [|c' s]; [repeat constructor; now apply one_line_rev|].
        simpl in Hn.
        destruct (Ascii.eqb c CR && Ascii.eqb c' LF);
          constructor; try (now apply one_line_rev);
          apply IH; try constructor; simpl; lia.
      * apply IH; [lia|]; constructor; auto.
Qed.

Lemma splitlines_one_line : forall s, Forall one_line (splitlines s).
Proof.
  intros s; apply (splitlines_from_one_line (List.length s)); auto.
  constructor.
Qed.

Lemma clean_save : forall r, clean_reader r -> clean_reader (Csv.parse_save_field r).
Proof.
  intros r [Hf Hc]; split; simpl; [|constructor].
  apply Forall_app; split; auto; repeat constructor; now apply one_line_rev.
Qed.

Lemma clean_state : forall r s, clean_reader r -> clean_reader (Csv.set_state r s).
Proof. intros r s H; exact H. Qed.

Lemma clean_add : forall r ch r',
  clean_reader r -> is_linebreak ch = false ->
  Csv.parse_add_char r ch = Ok r' -> clean_reader r'.
Proof.
  intros r ch r' [Hf Hc] Hch; unfold Csv.parse_add_char.
  destruct (_ <=? _)%N; [discriminate|].
  intros E; injection E as <-; split; simpl; auto.
  constructor; auto.
Qed.

Lemma clean_char : forall r c r',
  clean_reader r ->
  match c with Some ch => is_linebreak ch = false | None => True end ->
  Csv.parse_process_char r c = Ok r' -> clean_reader r'.
Proof.
  intros r c r' Hr Hc.
  unfold Csv.parse_process_char, Csv.in_start_field, Csv.end_row, bind.
  destruct (Csv.st r); destruct c as [ch|];
    repeat match goal with
           | |- context [if ?b then _ else _] => destruct b
           | |- context [match Csv.parse_add_char ?x ?y with _ => _ end] =>
               let E := fresh "E" in
               destruct (Csv.parse_add_char x y) eqn:E;
               [apply clean_add in E; [|exact Hr|assumption]|]
           end;
    intros E'; try discriminate;
    first [ injection E' as <-; auto using clean_save, clean_state
          | eapply clean_add; eauto ].
Qed.

Lemma clean_feed : forall line r r',
  clean_reader r -> one_line line ->
  Csv.feed r line = Ok r' -> clean_reader r'.
Proof.
  induction line as [|ch line IH]; intros r r' Hr Hl; simpl.
  - intros E; now injection E as <-.
  - inversion Hl; subst.
    destruct (Csv.parse_process_char r (Some ch)) as [r1|] eqn:E1;
      simpl; [|discriminate].
    intros E; apply (IH r1 r'); auto.
    eapply clean_char; [exact Hr| |exact E1]; assumption.
Qed.

Lemma clean_feed_line : forall line r r',
  clean_reader r -> one_line line ->
  Csv.feed_line r line = Ok r' -> clean_reader r'.
Proof.
  intros line r r' Hr Hl; unfold Csv.feed_line.
  destruct (Csv.feed r line) as [r1|] eqn:E1; simpl; [|discriminate].
  intros E; eapply clean_char; [eapply clean_feed; eauto| |exact E].
  exact I.
Qed.

Lemma clean_rows : forall lines r rows,
  clean_reader r -> Forall one_line lines ->
  Csv.rows_from r lines = Ok rows -> Forall (Forall one_line) rows.
Proof.
  induction lines as [|line lines IH]; intros r rows Hr Hl; simpl.
  - destruct (_ || _); intros E; injection E as <-; repeat constructor.
    apply clean_save, Hr.
  - inversion Hl; subst.
    destruct (Csv.feed_line r line) as [r1|] eqn:E1; simpl; [|discriminate].
    assert (clean_reader r1) as Hr1 by (eapply clean_feed_line; eauto).
    destruct (Csv.at_start r1).
    + destruct (Csv.rows_from Csv.parse_reset lines) as [rows'|] eqn:E2;
        simpl; [|discriminate].
      intros E; injection E as <-; constructor; [apply Hr1|].
      eapply IH; [|eauto|exact E2]; split; constructor.
    + apply IH; auto.
Qed.

Lemma lstrip_incl : forall s c, In c (lstrip s) -> In c s.
Proof.
  induction s as [|a s IH]; simpl; auto; intros c.
  destruct (is_space a); auto.
Qed.

Lemma strip_incl : forall s c, In c (strip s) -> In c s.
Proof.
  intros s c; unfold strip, rstrip; rewrite <- in_rev; intros H.
  apply lstrip_incl; rewrite in_rev; now apply lstrip_incl.
Qed.

Lemma one_line_strip : forall s, one_line s -> one_line (strip s).
Proof.
  unfold one_line; intros s; rewrite !Forall_forall; intros H c Hc.
  apply H, strip_incl, Hc.
Qed.

Lemma one_line_nth : forall row i, Forall one_line row -> one_line (nth i row []).
Proof.
  intros row i H; destruct (nth_in_or_default i row []) as [Hin| ->].
  - rewrite Forall_forall in H; auto.
  - constructor.
Qed.

Lemma one_line_add_row : forall rows acc,
  Forall (Forall one_line) rows -> Forall one_line_entry acc ->
  Forall one_line_entry (fold_left add_row rows acc).
Proof.
  induction rows as [|row rows IH]; intros acc Hr Ha; simpl; auto.
  inversion Hr; subst; apply IH; auto.
  unfold add_row; destruct (5 <=? List.length row)%nat; auto.
  apply Forall_app; split; auto; repeat constructor; simpl;
    auto using one_line_strip, one_line_nth.
Qed.

Lemma parser_entries_one_line : forall data recs,
  process_csv data = Ok recs -> Forall one_line_entry recs.
Proof.
  intros data recs; unfold process_csv, Csv.reader_rows.
  destruct (Csv.rows_from Csv.parse_reset (splitlines data))
    as [rows|] eqn:E; simpl; [|discriminate].
  intros E'; injection E' as <-.
  apply one_line_add_row; [|constructor].
  eapply clean_rows; [|apply splitlines_one_line|exact E].
  split; constructor.
Qed.

(** No field of a record that the parser builds holds a line boundary; in
    particular, no path holds a line feed. *)
Lemma parser_one_line : forall data recs,
  process_csv data = Ok recs ->
  Forall (fun e => one_line_entry e /\ ~ In LF (path e)) recs.
Proof.
  intros data recs; unfold process_csv, Csv.reader_rows.
  destruct (Csv.rows_from Csv.parse_reset (splitlines data))
    as [rows|] eqn:E; simpl; [|discriminate].
  intros E'; injection E' as <-.
  apply clean_rows in E;
    [|split; constructor|apply splitlines_one_line].
  pose proof (one_line_add_row rows [] E (Forall_nil _)) as H.
  rewrite Forall_forall in *; intros e He; split; auto.
  intros Hlf; destruct (H e He) as [Hp _].
  unfold one_line in Hp; rewrite Forall_forall in Hp.
  specialize (Hp LF Hlf); discriminate.
Qed.

End ParserText.

Lemma parser_one_line_witness :
  Forall (fun e => one_line_entry e /\ ~ In LF (path e))
    [ {| path := lit "a"; datetime := lit "b"; browser := lit "cd";
         status := lit "e"; size := lit "f" |} ].
Proof.
  apply (parser_one_line
           (lit "a,b," ++ [DQUOTE] ++ lit "c" ++ [LF]
            ++ lit "d" ++ [DQUOTE] ++ lit ",e,f")).
  vm_compute; reflexivity.
Defined.


(* ------------------------------------------------------------------ *)
(** ** Image paths *)

Section ImagePaths.

Lemma lit_dot_only : forall ch,
  cmatch (CLit "."%char) ch = true <-> ch = "."%char.
Proof.
  intros ch; split; [|intros ->; reflexivity].
  destruct ch as [[] [] [] [] [] [] [] []]; vm_compute;
    intros H; try reflexivity; discriminate.
Qed.

Lemma dot_all : forall s,
  Forall (fun ch => cmatch CDot ch = true) s <-> ~ In LF s.
Proof.
  intros s; rewrite Forall_forall; simpl; split.
  - intros H Hin; specialize (H _ Hin).
    now rewrite Ascii.eqb_refl in H.
  - intros H ch Hin; destruct (Ascii.eqb_spec ch LF); auto.
    subst ch; contradiction.
Qed.

(** What the image pattern accepts: a stem without line feed, a dot, one
    of the three extensions in any case, and then the end of the text or
    one last line feed. *)
Lemma is_image_iff : forall e,
  is_image e = true <->
  exists stem ext tail,
    path e = stem ++ "."%char :: ext ++ tail
    /\ ~ In LF stem
    /\ (same_text ext (lit "jpg") \/ same_text ext (lit "gif")
        \/ same_text ext (lit "png"))
    /\ (tail = [] \/ tail = [LF]).
Proof.
  intros e; unfold is_image; rewrite re_match_matches.
  unfold image_regex; cbn [matches]; split.
  - intros (rest & m1 & (stem & Hp & Hstem) & m2 & (ch & -> & Hch)
            & m3 & Hext & -> & Htail).
    apply lit_dot_only in Hch; subst ch.
    apply dot_all in Hstem.
    assert (exists ext, m2 = ext ++ m3
                        /\ (same_text ext (lit "jpg")
                            \/ same_text ext (lit "gif")
                            \/ same_text ext (lit "png")))
      as (ext & -> & Hs).
    { destruct Hext as [H|[H|H]];
        apply (proj1 (matches_word _ _ _)) in H as (t & -> & Ht);
        exists t; auto. }
    now exists stem, ext, m3.
  - intros (stem & ext & tail & Hp & Hstem & Hext & Htail).
    exists tail, ("."%char :: ext ++ tail); split.
    { exists stem; split; auto; now apply dot_all. }
    exists (ext ++ tail); split.
    { exists "."%char; split; auto. }
    exists tail; split; auto.
    destruct Hext as [H|[H|H]]; [left|right; left|right; right];
      apply matches_word; now exists ext.
Qed.

End ImagePaths.

(** On a path without line feed the pattern tests the end of the path. *)
Lemma image_iff_no_line_feed : forall e : log_entry,
  ~ In LF (path e) ->
  (is_image e = true <-> ends_in_image_ext (path e)).
Proof.
  intros e Hlf; rewrite is_image_iff; unfold ends_in_image_ext; split.
  - intros (stem & ext & tail & Hp & _ & Hext & Htail).
    destruct Htail as [-> | ->].
    + rewrite app_nil_r in Hp; now exists stem, ext.
    + exfalso; apply Hlf; rewrite Hp.
      rewrite in_app_iff; right; right.
      rewrite in_app_iff; right; simpl; auto.
  - intros (stem & ext & Hp & Hext).
    exists stem, ext, []; rewrite app_nil_r; repeat split; auto.
    intros Hin; apply Hlf; rewrite Hp, in_app_iff; auto.
Qed.

(** C2.  Every record that the parser builds counts as an image request
    exactly when its path ends in [.jpg], [.gif] or [.png] in any case: the
    pattern is anchored at the end of the path, so [foo.JPG] counts, and
    [foo.jpgx] and [foo.jpg?x=1] do not. *)
Theorem image_iff_extension :
  forall (data : str) (recs : list log_entry) (e : log_entry),
    process_csv data = Ok recs -> In e recs ->
    (is_image e = true <-> ends_in_image_ext (path e)).
Proof.
  intros data recs e Hp He.
  apply image_iff_no_line_feed.
  pose proof (parser_entries_one_line data recs Hp) as H.
  rewrite Forall_forall in H; destruct (H e He) as [Hpath _].
  intros Hlf; unfold one_line in Hpath; rewrite Forall_forall in Hpath.
  specialize (Hpath LF Hlf); discriminate.
Qed.

Lemma image_iff_extension_witness :
  is_image {| path := lit "foo.JPG"; datetime := lit "b"; browser := lit "c";
              status := lit "d"; size := lit "e" |} = true
  <-> ends_in_image_ext (lit "foo.JPG").
Proof.
  apply (image_iff_extension
           (lit "foo.JPG,b,c,d,e")
           [ {| path := lit "foo.JPG"; datetime := lit "b";
                browser := lit "c"; status := lit "d"; size := lit "e" |} ]).
  - vm_compute; reflexivity.
  - left; reflexivity.
Defined.

(** The records of the parser apart, a line feed in the path shows the two
    places where the pattern of the source is not a plain test of the end:
    [$] also matches before a last line feed, and [.] matches no line
    feed. *)
Remark image_line_feed_paths :
  is_image {| path := lit "foo.jpg" ++ [LF]; datetime := [];
              browser := []; status := []; size := [] |} = true
  /\ ~ ends_in_image_ext (lit "foo.jpg" ++ [LF])
  /\ is_image {| path := lit "a" ++ [LF] ++ lit "b.jpg"; datetime := [];
                 browser := []; status := []; size := [] |} = false
  /\ ends_in_image_ext (lit "a" ++ [LF] ++ lit "b.jpg").
Proof.
  split; [reflexivity|]; split; [|split; [reflexivity|]].
  - intros (stem & ext & E & H).
    assert (List.length ext = 3%nat) as Hl
        by (destruct H as [H|[H|H]]; apply same_text_length in H; exact H).
    destruct ext as [|a [|b [|c [|d ext]]]]; try discriminate.
    apply (f_equal (@rev ascii)) in E.
    simpl in E; rewrite rev_app_distr in E; simpl in E.
    discriminate.
  - exists (lit "a" ++ [LF] ++ lit "b"), (lit "jpg"); split; auto.
    left; reflexivity.
Qed.

(* ------------------------------------------------------------------ *)
(** ** The parser *)

Section Parser.

Lemma add_row_fields : forall acc row,
  add_row acc row = acc ++ record_of_fields row.
Proof.
  intros acc row; unfold add_row.
  destruct row as [|f0 [|f1 [|f2 [|f3 [|f4 row]]]]]; simpl;
    auto using app_nil_r.
Qed.

Lemma fold_add_row : forall rows acc,
  fold_left add_row rows acc = acc ++ flat_map record_of_fields rows.
Proof.
  induction rows as [|row rows IH]; intros acc; simpl.
  - now rewrite app_nil_r.
  - now rewrite IH, add_row_fields, <- app_assoc.
Qed.

Lemma closed_line_rows : forall line,
  closed_line line = true ->
  exists r, Csv.feed_line Csv.parse_reset line = Ok r
            /\ Csv.at_start r = true
            /\ line_rows line = [Csv.fields r].
Proof.
  intros line; unfold closed_line, line_rows, Csv.reader_rows; simpl.
  destruct (Csv.feed_line Csv.parse_reset line) as [r|msg];
    [|discriminate].
  intros H; exists r; simpl; rewrite H; auto.
Qed.

(** When every line is closed, the reader yields one row per line: the
    fields of the line read on its own. *)
Lemma rows_of_closed_lines : forall lines,
  forallb closed_line lines = true ->
  Csv.reader_rows lines = Ok (flat_map line_rows lines).
Proof.
  unfold Csv.reader_rows; induction lines as [|line lines IH]; simpl.
  - reflexivity.
  - intros H; apply andb_true_iff in H as [Hl Hr].
    destruct (closed_line_rows line Hl) as (r & -> & Hs & ->); simpl.
    now rewrite Hs, (IH Hr).
Qed.

End Parser.

Section FieldLimit.

Lemma splitlines_from_plain : forall s cur,
  one_line s -> s <> [] \/ cur <> [] ->
  splitlines_from cur s = [rev cur ++ s].
Proof.
  induction s as [|c s IH]; intros cur Hs Hne; simpl.
  - destruct cur; [destruct Hne; congruence|now rewrite app_nil_r].
  - inversion Hs as [|? ? Hc Hs']; subst; rewrite Hc.
    rewrite IH; auto; [|right; discriminate].
    simpl; now rewrite <- app_assoc.
Qed.

Lemma run_of_succ : forall c n, run_of c (N.succ n) = c :: run_of c n.
Proof. intros; unfold run_of; now rewrite N.iter_succ. Qed.

Lemma one_line_run_of : forall n, one_line (run_of "a"%char n).
Proof.
  induction n as [|n IH] using N.peano_ind; [constructor|].
  rewrite run_of_succ; constructor; auto.
Qed.

(** In an unquoted field, plain characters beyond the field limit raise. *)
Lemma feed_over_limit : forall n r,
  Csv.st r = Csv.IN_FIELD ->
  (Csv.field_len r <= Csv.field_limit)%N ->
  (Csv.field_limit < Csv.field_len r + n)%N ->
  Csv.feed r (run_of "a"%char n)
  = Raise "field larger than field limit (131072)".
Proof.
  induction n as [|n IH] using N.peano_ind; intros r Hst Hle Hlt; [lia|].
  rewrite run_of_succ; simpl.
  unfold Csv.parse_process_char; rewrite Hst; simpl.
  unfold Csv.parse_add_char.
  destruct (Csv.field_limit <=? Csv.field_len r)%N eqn:E; simpl; auto.
  apply N.leb_gt in E; apply IH; simpl; auto; lia.
Qed.

Lemma long_field_raises_from : forall n,
  (Csv.field_limit <= n)%N ->
  process_csv (run_of "a"%char (N.succ n))
  = Raise "field larger than field limit (131072)".
Proof.
  intros n Hn; unfold process_csv, splitlines.
  rewrite splitlines_from_plain; [|apply one_line_run_of|left].
  2:{ rewrite run_of_succ; discriminate. }
  rewrite run_of_succ.
  unfold Csv.reader_rows, Csv.rows_from, Csv.feed_line.
  cbn [rev app Csv.feed].
  change (Csv.parse_process_char Csv.parse_reset (Some "a"%char))
    with (Ok {| Csv.st := Csv.IN_FIELD; Csv.fields := [];
                Csv.field := ["a"%char]; Csv.field_len := 1 |}).
  cbn [bind]; rewrite feed_over_limit; auto.
  - unfold Csv.field_limit; simpl; lia.
  - simpl Csv.field_len; lia.
Qed.

End FieldLimit.

(** C5, as the code has it.  The empty text gives no record.  For text in
    which every line, read on its own, closes the quoted fields it opens
    and stays within the field limit, the parser returns, in line order,
    one record (the first five fields, trimmed) for every line with five
    fields or more and nothing for the other lines. *)
Theorem parser_line_by_line :
  process_csv [] = Ok []
  /\ forall data : str,
       forallb closed_line (splitlines data) = true ->
       process_csv data = Ok (spec_parse data).
Proof.
  split; [reflexivity|].
  intros data H; unfold process_csv, spec_parse.
  rewrite (rows_of_closed_lines _ H); simpl.
  rewrite fold_add_row; simpl; f_equal.
  induction (splitlines data) as [|line lines IH]; simpl; auto.
  rewrite flat_map_app; f_equal; apply IH.
  now apply andb_true_iff in H as [_ H].
Qed.

Lemma parser_line_by_line_witness :
  process_csv (lit "a,b,c,d,e,f" ++ [LF] ++ lit "x,y" ++ [CR; LF]
               ++ lit " p , q,r ,s,t ")
  = Ok [ {| path := lit "a"; datetime := lit "b"; browser := lit "c";
            status := lit "d"; size := lit "e" |};
         {| path := lit "p"; datetime := lit "q"; browser := lit "r";
            status := lit "s"; size := lit "t" |} ].
Proof.
  exact (proj2 parser_line_by_line
               (lit "a,b,c,d,e,f" ++ [LF] ++ lit "x,y" ++ [CR; LF]
                ++ lit " p , q,r ,s,t ")
               eq_refl).
Defined.

(** C5, as the claim states it, fails: a quoted field left open at the end
    of a line goes on with the next line.  Here both lines have three
    fields when split on their own, and yet the parser builds a record.
    Nor is the parser total: a line of 131073 plain characters raises. *)
Lemma parser_open_quote_counterexample :
  let data := lit "a,b," ++ [DQUOTE] ++ lit "c" ++ [LF]
              ++ lit "d" ++ [DQUOTE] ++ lit ",e,f" in
  map line_rows (splitlines data)
  = [ [[lit "a"; lit "b"; lit "c"]];
      [[lit "d" ++ [DQUOTE]; lit "e"; lit "f"]] ]
  /\ spec_parse data = []
  /\ process_csv data
     = Ok [ {| path := lit "a"; datetime := lit "b"; browser := lit "cd";
               status := lit "e"; size := lit "f" |} ]
  /\ process_csv (run_of "a"%char 131073)
     = Raise "field larger than field limit (131072)".
Proof.
  cbv zeta; split; [reflexivity|]; split; [reflexivity|].
  split; [reflexivity|].
  apply (long_field_raises_from 131072), N.le_refl.
Qed.

(* ------------------------------------------------------------------ *)
(** ** The timestamps [strptime] accepts *)

Module StrptimeFacts.

Import Strptime.

Lemma digit_cases : forall c,
  is_digit c = true -> In c (lit "0123456789").
Proof.
  intros c; destruct c as [[] [] [] [] [] [] [] []]; vm_compute;
    intros H; try discriminate; intuition.
Qed.

Lemma lit_exact : forall d c,
  In d (lit "01236/: ") -> cmatch (CLit d) c = true -> c = d.
Proof.
  intros d c Hd; simpl in Hd.
  repeat (destruct Hd as [<-|Hd]); try contradiction;
    destruct c as [[] [] [] [] [] [] [] []]; vm_compute;
    intros H; try reflexivity; discriminate.
Qed.

Lemma range_digit : forall lo hi c,
  is_digit lo = true -> is_digit hi = true ->
  cmatch (CRange lo hi) c = true ->
  is_digit c = true /\ digit_val lo <= digit_val c <= digit_val hi.
Proof.
  intros lo hi c; unfold cmatch, is_digit, in_range, digit_val.
  rewrite !andb_true_iff, !N.leb_le; lia.
Qed.

Lemma digit_val_range : forall c, is_digit c = true -> 0 <= digit_val c <= 9.
Proof.
  intros c; unfold is_digit, in_range, digit_val.
  rewrite !andb_true_iff, !N.leb_le; lia.
Qed.

Lemma digit_not_space : forall c, is_digit c = true -> is_space c = false.
Proof.
  intros c; unfold is_digit, is_space, in_range.
  rewrite !andb_true_iff, !N.leb_le; intros H.
  repeat (apply orb_false_iff; split);
    try (apply andb_false_iff; rewrite !N.leb_gt; lia);
    apply N.eqb_neq; lia.
Qed.

Lemma star_run_sound : forall (R : Type) cl s (k : str -> option R) v,
  star_run cl s k = Some v ->
  exists a rest, s = a ++ rest
                 /\ Forall (fun ch => cmatch cl ch = true) a
                 /\ k rest = Some v.
Proof.
  induction s as [|ch s IH]; intros k v; simpl.
  - intros H; exists [], []; auto.
  - destruct (cmatch cl ch) eqn:Hc.
    + destruct (star_run cl s k) eqn:Hs.
      * intros E; injection E as ->.
        destruct (IH _ _ Hs) as (a & rest & -> & Ha & Hk).
        exists (ch :: a), rest; auto.
      * intros H; exists [], (ch :: s); auto.
    + intros H; exists [], (ch :: s); auto.
Qed.

Lemma run_sound : forall (R : Type) r s g (k : groups -> str -> option R) v,
  run r s g k = Some v ->
  exists rest g', matches_g r s g rest g' /\ k g' rest = Some v.
Proof.
  induction r as [|cl|r1 IH1 r2 IH2|r1 IH1 r2 IH2|cl|name r IH|];
    intros s g k v; simpl.
  - intros H; exists s, g; auto.
  - destruct s as [|ch s]; [discriminate|].
    destruct (cmatch cl ch) eqn:Hc; [|discriminate].
    intros H; exists s, g; repeat split; auto; now exists ch.
  - intros H; apply IH1 in H as (mid & gm & H1 & H).
    apply IH2 in H as (rest & g' & H2 & H).
    exists rest, g'; split; auto; now exists mid, gm.
  - destruct (run r1 s g k) eqn:E1.
    + intros E; injection E as ->.
      apply IH1 in E1 as (rest & g' & H1 & H); exists rest, g'; auto.
    + intros H; apply IH2 in H as (rest & g' & H2 & H).
      exists rest, g'; auto.
  - intros H; apply star_run_sound in H as (a & rest & -> & Ha & H).
    exists rest, g; repeat split; auto; now exists a.
  - intros H; apply IH in H as (rest & g0 & H0 & H).
    exists rest, ((name, firstn (List.length s - List.length rest) s) :: g0).
    split; auto; now exists g0.
  - destruct s as [|c [|c' s]].
    + intros H; exists [], g; auto.
    + destruct (Ascii.eqb_spec c LF) as [->|Hc]; [|discriminate].
      intros H; exists [LF], g; auto.
    + discriminate.
Qed.

Lemma int_of_digits_1 : forall a, int_of_digits [a] = digit_val a.
Proof. intros; unfold int_of_digits; simpl; lia. Qed.

Lemma int_of_digits_2 : forall a b,
  int_of_digits [a; b] = 10 * digit_val a + digit_val b.
Proof. intros; unfold int_of_digits; simpl; lia. Qed.

Ltac lit_facts :=
  repeat match goal with
         | H : cmatch (CLit ?d) ?c = true |- _ =>
             apply lit_exact in H; [subst c|simpl; tauto]
         end.

Ltac digit_vals :=
  repeat match goal with
         | |- context [digit_val (Ascii ?a ?b ?c ?d ?e ?f ?g ?h)] =>
             let v := eval vm_compute in
                        (digit_val (Ascii a b c d e f g h)) in
             change (digit_val (Ascii a b c d e f g h)) with v
         | H : context [digit_val (Ascii ?a ?b ?c ?d ?e ?f ?g ?h)] |- _ =>
             let v := eval vm_compute in
                        (digit_val (Ascii a b c d e f g h)) in
             change (digit_val (Ascii a b c d e f g h)) with v in H
         end.

Ltac range_facts :=
  repeat match goal with
         | H : cmatch (CRange ?lo ?hi) ?c = true |- _ =>
             apply range_digit in H; [|reflexivity|reflexivity];
             let Hd := fresh "Hd" in destruct H as [Hd H]
         | H : cmatch CDigit ?c = true |- _ =>
             change (is_digit c = true) in H;
             pose proof (digit_val_range c H); revert H
         end; intros.

Ltac numeral1 :=
  split; [left; reflexivity|]; split; [repeat constructor; auto|];
  rewrite int_of_digits_1; digit_vals; lia.

Ltac numeral2 :=
  split; [right; reflexivity|]; split; [repeat constructor; auto|];
  rewrite int_of_digits_2; digit_vals; lia.

Ltac pick_numeral :=
  match goal with
  | |- exists x, ?a :: ?b :: ?rest = x ++ ?rest /\ _ =>
      exists [a; b]; split; [reflexivity|numeral2]
  | |- exists x, ?a :: ?rest = x ++ ?rest /\ _ =>
      exists [a]; split; [reflexivity|numeral1]
  end.

Ltac shape_cases H :=
  decompose [ex and or] H; clear H; subst; lit_facts; range_facts;
  (split; [reflexivity|]).

Lemma re_m_shape : forall s g rest g',
  matches_g re_m s g rest g' ->
  g' = g /\ exists x, s = x ++ rest /\ numeral 1 12 x.
Proof.
  unfold re_m, ch, rng, dig; cbn [matches_g]; intros s g rest g' H.
  shape_cases H; pick_numeral.
Qed.

Lemma re_H_shape : forall s g rest g',
  matches_g re_H s g rest g' ->
  g' = g /\ exists x, s = x ++ rest /\ numeral 0 23 x.
Proof.
  unfold re_H, ch, rng, dig; cbn [matches_g]; intros s g rest g' H.
  shape_cases H; pick_numeral.
Qed.

Lemma re_M_shape : forall s g rest g',
  matches_g re_M s g rest g' ->
  g' = g /\ exists x, s = x ++ rest /\ numeral 0 59 x.
Proof.
  unfold re_M, ch, rng, dig; cbn [matches_g]; intros s g rest g' H.
  shape_cases H; pick_numeral.
Qed.

Lemma re_S_shape : forall s g rest g',
  matches_g re_S s g rest g' ->
  g' = g /\ exists x, s = x ++ rest /\ numeral 0 61 x.
Proof.
  unfold re_S, ch, rng, dig; cbn [matches_g]; intros s g rest g' H.
  shape_cases H; pick_numeral.
Qed.

Lemma re_Y_shape : forall s g rest g',
  matches_g re_Y s g rest g' ->
  g' = g /\ exists x, s = x ++ rest /\ List.length x = 4%nat
                      /\ Forall (fun c => is_digit c = true) x.
Proof.
  unfold re_Y, ch, rng, dig; cbn [matches_g]; intros s g rest g' H.
  decompose [ex and or] H; clear H; subst; split; [reflexivity|].
  match goal with
  | |- exists x, ?a :: ?b :: ?c :: ?d :: ?rest = x ++ ?rest /\ _ =>
      exists [a; b; c; d]; repeat split; auto
  end.
Qed.

Lemma re_d_shape : forall s g rest g',
  matches_g re_d s g rest g' ->
  g' = g /\ exists x, s = x ++ rest /\ day_text x.
Proof.
  unfold re_d, ch, rng, dig; cbn [matches_g]; intros s g rest g' H.
  shape_cases H.
  - exists ["3"%char; x2]; split; [reflexivity|left; numeral2].
  - exists [x1; x2]; split; [reflexivity|left; numeral2].
  - exists ["0"%char; x2]; split; [reflexivity|left; numeral2].
  - exists [x]; split; [reflexivity|left; numeral1].
  - exists [" "%char; x2]; split; [reflexivity|right].
    exists x2; digit_vals; repeat split; auto; lia.
Qed.

Lemma firstn_prefix : forall (x rest : str),
  firstn (List.length (x ++ rest) - List.length rest) (x ++ rest) = x.
Proof.
  intros x rest; rewrite length_app.
  replace (List.length x + List.length rest - List.length rest)%nat
    with (List.length x + 0)%nat by lia.
  now rewrite firstn_app_2, firstn_O, app_nil_r.
Qed.

Lemma group_shape : forall name r s g rest g' (P : str -> Prop),
  (forall s g rest g', matches_g r s g rest g' ->
                       g' = g /\ exists x, s = x ++ rest /\ P x) ->
  matches_g (Group name r) s g rest g' ->
  exists x, s = x ++ rest /\ P x /\ g' = (name, x) :: g.
Proof.
  intros name r s g rest g' P Hr (g0 & H & ->).
  apply Hr in H as (-> & x & -> & Hx).
  exists x; rewrite firstn_prefix; auto.
Qed.

Lemma sep_shape : forall d s g rest g',
  In d (lit "01236/: ") ->
  matches_g (ch d) s g rest g' -> s = d :: rest /\ g' = g.
Proof.
  intros d s g rest g' Hd ((c & -> & Hc) & ->).
  apply lit_exact in Hc; auto; now subst c.
Qed.

Lemma spaces_shape : forall s g rest g',
  matches_g (Plus CSpace) s g rest g' ->
  g' = g /\ exists ws, s = ws ++ rest /\ ws <> []
                       /\ Forall (fun c => is_space c = true) ws.
Proof.
  intros s g rest g' (mid & gm & ((c & -> & Hc) & ->) & (a & -> & Ha) & ->).
  split; auto; exists (c :: a); repeat split; auto; discriminate.
Qed.

Lemma strip_numeral : forall lo hi x, numeral lo hi x -> strip x = x.
Proof.
  intros lo hi x ([Hl|Hl] & Hd & _).
  - destruct x as [|a [|]]; try discriminate.
    inversion Hd; subst.
    unfold strip, rstrip; simpl.
    rewrite (digit_not_space a); auto; simpl.
    rewrite (digit_not_space a); auto.
  - destruct x as [|a [|b [|]]]; try discriminate.
    inversion Hd as [|? ? Ha Hd']; inversion Hd'; subst.
    unfold strip, rstrip; simpl.
    rewrite (digit_not_space a); auto; simpl.
    rewrite (digit_not_space b); auto.
Qed.

Lemma strip_year : forall y,
  List.length y = 4%nat -> Forall (fun c => is_digit c = true) y ->
  strip y = y.
Proof.
  intros y Hl Hd.
  destruct y as [|a [|b [|c [|d [|]]]]]; try discriminate.
  inversion Hd as [|? ? Ha Hd1]; inversion Hd1 as [|? ? Hb Hd2];
    inversion Hd2 as [|? ? Hc Hd3]; inversion Hd3 as [|? ? Hd4 Hd5]; subst.
  unfold strip, rstrip; simpl.
  rewrite (digit_not_space a); auto; simpl.
  rewrite (digit_not_space d); auto.
Qed.

(** Every accepted timestamp has the format. *)
Lemma strptime_sound : forall ts d,
  strptime ts = Some d -> timestamp_format ts d.
Proof.
  intros ts d; unfold strptime.
  destruct (re_match format_regex ts) as [found|] eqn:E; [|discriminate].
  unfold re_match in E; apply run_sound in E as (rest & g' & Hm & E).
  injection E as <-; simpl m_rest; simpl m_groups.
  destruct rest as [|c rest]; [|discriminate].
  unfold format_regex in Hm; cbn [matches_g] in Hm.
  destruct Hm as (s1 & g1 & Hmo & s2 & g2 & Hs1 & s3 & g3 & Hda
                  & s4 & g4 & Hs2 & s5 & g5 & Hy & s6 & g6 & Hws
                  & s7 & g7 & Hh & s8 & g8 & Hs3 & s9 & g9 & Hmi
                  & s10 & g10 & Hs4 & Hse).
  apply (group_shape _ _ _ _ _ _ _ re_m_shape) in Hmo as (mo & -> & Hmo & ->).
  apply sep_shape in Hs1 as [-> ->]; [|simpl; tauto].
  apply (group_shape _ _ _ _ _ _ _ re_d_shape) in Hda as (da & -> & Hda & ->).
  apply sep_shape in Hs2 as [-> ->]; [|simpl; tauto].
  apply (group_shape _ _ _ _ _ _ _ re_Y_shape) in Hy as (y & -> & Hy & ->).
  apply spaces_shape in Hws as (-> & ws & -> & Hws).
  apply (group_shape _ _ _ _ _ _ _ re_H_shape) in Hh as (h & -> & Hh & ->).
  apply sep_shape in Hs3 as [-> ->]; [|simpl; tauto].
  apply (group_shape _ _ _ _ _ _ _ re_M_shape) in Hmi as (mi & -> & Hmi & ->).
  apply sep_shape in Hs4 as [-> ->]; [|simpl; tauto].
  apply (group_shape _ _ _ _ _ _ _ re_S_shape) in Hse as (se & -> & Hse & ->).
  unfold int_group; simpl group; cbv beta iota.
  rewrite (strip_numeral _ _ _ Hmo), (strip_numeral _ _ _ Hh),
    (strip_numeral _ _ _ Hmi), (strip_numeral _ _ _ Hse),
    (strip_year y (proj1 Hy) (proj2 Hy)).
  destruct (valid_date _ _ _ && valid_time _ _ _) eqn:Hv; [|discriminate].
  apply andb_true_iff in Hv as [Hvd Hvt].
  intros E; injection E as <-.
  exists mo, da, y, ws, h, mi, se; rewrite app_nil_r.
  split; [reflexivity|]; split; [exact Hmo|]; split; [exact Hda|].
  split; [exact Hy|]; split; [exact Hws|]; split; [exact Hh|].
  split; [exact Hmi|]; split; [|split; [reflexivity|exact Hvd]].
  destruct Hse as (Hl & Hd & Hr); repeat split; auto; try lia.
  unfold valid_time in Hvt; rewrite !andb_true_iff, !Z.leb_le in Hvt; lia.
Qed.

Lemma nondigit_range : forall lo hi c,
  is_digit lo = true -> is_digit hi = true -> is_digit c = false ->
  cmatch (CRange lo hi) c = false.
Proof.
  intros lo hi c; unfold cmatch, is_digit, in_range.
  rewrite !andb_true_iff, !andb_false_iff, !N.leb_le, !N.leb_gt; lia.
Qed.

Ltac close_cmatch :=
  repeat match goal with
         | |- context [cmatch ?cl (Ascii ?a ?b ?c ?d ?e ?f ?g ?h)] =>
             let v := eval vm_compute in
                        (cmatch cl (Ascii a b c d e f g h)) in
             change (cmatch cl (Ascii a b c d e f g h)) with v
         end.

Ltac run_steps Hk Hc :=
  repeat (cbn [run app]; close_cmatch; cbv iota;
          try rewrite Hk;
          try match goal with
              | |- context [cmatch (CRange ?lo ?hi) ?c] =>
                  rewrite (nondigit_range lo hi c eq_refl eq_refl Hc)
              end;
          try match goal with
              | |- context [cmatch CDigit ?c] =>
                  change (cmatch CDigit c) with (is_digit c); rewrite Hc
              end).

Ltac enum_digit H :=
  apply digit_cases in H; simpl in H;
  decompose [or] H; clear H; try contradiction; subst.

Ltac numeral_cases Hx Hd Hr :=
  let Hl := fresh "Hl" in
  destruct Hx as (Hl & Hd & Hr);
  destruct Hl as [Hl|Hl];
  match type of Hl with
  | List.length ?x = 1%nat =>
      destruct x as [|? [|]]; try discriminate Hl
  | List.length ?x = 2%nat =>
      destruct x as [|? [|? [|]]]; try discriminate Hl
  end.

Lemma run_re_m : forall (R : Type) x rest g
                        (k : groups -> str -> option R) v,
  numeral 1 12 x -> no_digit_next rest -> k g rest = Some v ->
  run re_m (x ++ rest) g k = Some v.
Proof.
  intros R x rest g k v Hx Hn Hk; unfold re_m, ch, rng, dig.
  numeral_cases Hx Hd Hr.
  - inversion Hd as [|? ? Ha _]; subst; clear Hd.
    rewrite int_of_digits_1 in Hr.
    enum_digit Ha; digit_vals; try lia;
      destruct rest as [|c rest]; simpl in Hn; run_steps Hk Hn;
      reflexivity.
  - inversion Hd as [|? ? Ha Hd']; inversion Hd' as [|? ? Hb _];
      subst; clear Hd Hd'.
    rewrite int_of_digits_2 in Hr.
    enum_digit Ha; digit_vals; try lia;
      enum_digit Hb; digit_vals; try lia;
      run_steps Hk Hn; reflexivity.
Qed.

Ltac numeral_run Hx Hn Hk :=
  let Hd := fresh "Hd" in
  let Hr := fresh "Hr" in
  let Ha := fresh "Ha" in
  let Hb := fresh "Hb" in
  let Hd' := fresh "Hd'" in
  numeral_cases Hx Hd Hr;
  [ inversion Hd as [|? ? Ha _]; subst; clear Hd;
    rewrite int_of_digits_1 in Hr;
    enum_digit Ha; digit_vals; try lia;
    match goal with
    | |- context [_ ++ ?rest] =>
        destruct rest as [|? ?]; simpl in Hn; run_steps Hk Hn; reflexivity
    end
  | inversion Hd as [|? ? Ha Hd']; inversion Hd' as [|? ? Hb _];
    subst; clear Hd Hd';
    rewrite int_of_digits_2 in Hr;
    enum_digit Ha; digit_vals; try lia;
    enum_digit Hb; digit_vals; try lia;
    run_steps Hk Hn; reflexivity ].

Lemma run_re_H : forall (R : Type) x rest g
                        (k : groups -> str -> option R) v,
  numeral 0 23 x -> no_digit_next rest -> k g rest = Some v ->
  run re_H (x ++ rest) g k = Some v.
Proof.
  intros R x rest g k v Hx Hn Hk; unfold re_H, ch, rng, dig.
  numeral_run Hx Hn Hk.
Qed.

Lemma run_re_M : forall (R : Type) x rest g
                        (k : groups -> str -> option R) v,
  numeral 0 59 x -> no_digit_next rest -> k g rest = Some v ->
  run re_M (x ++ rest) g k = Some v.
Proof.
  intros R x rest g k v Hx Hn Hk; unfold re_M, ch, rng, dig.
  numeral_run Hx Hn Hk.
Qed.

Lemma run_re_S : forall (R : Type) x rest g
                        (k : groups -> str -> option R) v,
  numeral 0 59 x -> no_digit_next rest -> k g rest = Some v ->
  run re_S (x ++ rest) g k = Some v.
Proof.
  intros R x rest g k v Hx Hn Hk; unfold re_S, ch, rng, dig.
  numeral_run Hx Hn Hk.
Qed.

Lemma run_re_d : forall (R : Type) x rest g
                        (k : groups -> str -> option R) v,
  day_text x -> no_digit_next rest -> k g rest = Some v ->
  run re_d (x ++ rest) g k = Some v.
Proof.
  intros R x rest g k v [Hx|(c & -> & Hc & Hv)] Hn Hk;
    unfold re_d, ch, rng, dig.
  - numeral_run Hx Hn Hk.
  - enum_digit Hc; revert Hv; digit_vals; intros Hv; try lia;
      run_steps Hk Hn; reflexivity.
Qed.

Lemma run_re_Y : forall (R : Type) y rest g
                        (k : groups -> str -> option R),
  List.length y = 4%nat -> Forall (fun c => is_digit c = true) y ->
  run re_Y (y ++ rest) g k = k g rest.
Proof.
  intros R y rest g k Hl Hd.
  destruct y as [|a [|b [|c [|d [|]]]]]; try discriminate.
  inversion Hd as [|? ? Ha Hd1]; inversion Hd1 as [|? ? Hb Hd2];
    inversion Hd2 as [|? ? Hc Hd3]; inversion Hd3 as [|? ? Hd4 Hd5]; subst.
  unfold re_Y, dig; simpl.
  now rewrite Ha, Hb, Hc, Hd4.
Qed.

Lemma run_group : forall (R : Type) name r x rest g
                         (k : groups -> str -> option R) v,
  (forall k0 : groups -> str -> option R,
      k0 g rest = Some v -> run r (x ++ rest) g k0 = Some v) ->
  k ((name, x) :: g) rest = Some v ->
  run (Group name r) (x ++ rest) g k = Some v.
Proof.
  intros R name r x rest g k v Hr Hk; cbn [run].
  apply Hr; now rewrite firstn_prefix.
Qed.

Lemma star_run_exact : forall (R : Type) cl a rest
                              (k : str -> option R) v,
  Forall (fun c => cmatch cl c = true) a ->
  match rest with [] => True | c :: _ => cmatch cl c = false end ->
  k rest = Some v ->
  star_run cl (a ++ rest) k = Some v.
Proof.
  induction a as [|c a IH]; intros rest k v Ha Hr Hk; simpl.
  - destruct rest as [|c rest]; simpl; auto.
    now rewrite Hr.
  - inversion Ha as [|? ? Hc Ha']; subst.
    now rewrite Hc, (IH rest k v).
Qed.

Lemma run_spaces : forall (R : Type) ws rest g
                          (k : groups -> str -> option R) v,
  ws <> [] -> Forall (fun c => is_space c = true) ws ->
  match rest with [] => True | c :: _ => is_space c = false end ->
  k g rest = Some v ->
  run (Plus CSpace) (ws ++ rest) g k = Some v.
Proof.
  intros R ws rest g k v Hne Hws Hr Hk.
  destruct ws as [|c ws]; [congruence|].
  inversion Hws as [|? ? Hc Hws']; subst.
  unfold Plus; cbn [run app]; simpl cmatch; rewrite Hc.
  now apply star_run_exact.
Qed.

Lemma numeral_no_space_next : forall lo hi x rest,
  numeral lo hi x ->
  match x ++ rest with [] => True | c :: _ => is_space c = false end.
Proof.
  intros lo hi x rest ([Hl|Hl] & Hd & _);
    destruct x as [|a x]; try discriminate;
    inversion Hd; subst; simpl; now apply digit_not_space.
Qed.

Lemma run_cat : forall (R : Type) r1 r2 s g
                       (k : groups -> str -> option R),
  run (Cat r1 r2) s g k = run r1 s g (fun g' s' => run r2 s' g' k).
Proof. reflexivity. Qed.

Lemma run_ch : forall (R : Type) d r s g (k : groups -> str -> option R),
  cmatch (CLit d) d = true ->
  run (Cat (ch d) r) (d :: s) g k = run r s g k.
Proof. intros R d r s g k H; unfold ch; cbn [run]; now rewrite H. Qed.

Lemma format_match : forall mo da y ws h mi se,
  numeral 1 12 mo -> day_text da ->
  List.length y = 4%nat -> Forall (fun c => is_digit c = true) y ->
  ws <> [] -> Forall (fun c => is_space c = true) ws ->
  numeral 0 23 h -> numeral 0 59 mi -> numeral 0 59 se ->
  re_match format_regex
    (mo ++ "/"%char :: da ++ "/"%char :: y ++ ws
        ++ h ++ ":"%char :: mi ++ ":"%char :: se)
  = Some {| m_groups := [("S"%string, se); ("M"%string, mi);
                         ("H"%string, h); ("Y"%string, y);
                         ("d"%string, da); ("m"%string, mo)];
            m_rest := [] |}.
Proof.
  intros mo da y ws h mi se Hmo Hda Hy1 Hy2 Hws1 Hws2 Hh Hmi Hse.
  unfold re_match, format_regex; rewrite run_cat.
  apply run_group; [intros k0 Hk0; apply run_re_m; auto; reflexivity|].
  rewrite run_ch, run_cat by reflexivity.
  apply run_group; [intros k0 Hk0; apply run_re_d; auto; reflexivity|].
  rewrite run_ch, run_cat by reflexivity.
  apply run_group; [intros k0 Hk0; now rewrite run_re_Y|].
  rewrite run_cat.
  apply run_spaces; auto; [eapply numeral_no_space_next; eauto|].
  rewrite run_cat.
  apply run_group; [intros k0 Hk0; apply run_re_H; auto; reflexivity|].
  rewrite run_ch, run_cat by reflexivity.
  apply run_group; [intros k0 Hk0; apply run_re_M; auto; reflexivity|].
  rewrite run_ch by reflexivity.
  rewrite <- (app_nil_r se) at 1.
  apply run_group; [intros k0 Hk0; apply run_re_S; simpl; auto|].
  reflexivity.
Qed.

(** Every timestamp of the format is accepted. *)
Lemma strptime_complete : forall ts d,
  timestamp_format ts d -> strptime ts = Some d.
Proof.
  intros ts d (mo & da & y & ws & h & mi & se & -> & Hmo & Hda
               & [Hy1 Hy2] & [Hws1 Hws2] & Hh & Hmi & Hse & -> & Hv).
  unfold strptime; rewrite format_match; auto.
  simpl m_rest; simpl m_groups; cbv iota.
  unfold int_group; simpl group; cbv beta iota.
  rewrite (strip_numeral _ _ _ Hmo), (strip_numeral _ _ _ Hh),
    (strip_numeral _ _ _ Hmi), (strip_numeral _ _ _ Hse),
    (strip_year y Hy1 Hy2), Hv.
  replace (valid_time _ _ _) with true; [reflexivity|].
  symmetry; unfold valid_time.
  destruct Hh as (_ & _ & Hh), Hmi as (_ & _ & Hmi), Hse as (_ & _ & Hse).
  rewrite !andb_true_iff, !Z.leb_le; lia.
Qed.

(** A numeral can be checked by computation. *)
Lemma numeral_check : forall lo hi s,
  ((List.length s =? 1)%nat || (List.length s =? 2)%nat)
  && forallb is_digit s
  && (lo <=? int_of_digits s) && (int_of_digits s <=? hi) = true ->
  numeral lo hi s.
Proof.
  intros lo hi s; rewrite !andb_true_iff, orb_true_iff, !Nat.eqb_eq,
    !Z.leb_le, forallb_forall.
  intros [[[Hl Hd] H1] H2]; repeat split; auto.
  now apply Forall_forall.
Qed.

(** [strptime] accepts exactly the timestamps of the format. *)
Lemma strptime_iff : forall ts d,
  strptime ts = Some d <-> timestamp_format ts d.
Proof. split; [apply strptime_sound|apply strptime_complete]. Qed.

End StrptimeFacts.

(** C8, as the code has it, for timestamps of code points below 256, where
    the digits are [0] to [9].  Such a timestamp parses exactly when it has
    the format of [timestamp_format]: month, day, hour, minute and second
    of one or two digits, a four-digit year, white space between date and
    time, and a date of the calendar.  A record whose timestamp has the
    format adds one hit to its hour, which lies between 0 and 23; any other
    such record leaves the hour tally as it is. *)
Theorem timestamp_parse : forall (e : log_entry) (c : Counter Z),
  (forall d, Strptime.strptime (datetime e) = Some d
             <-> timestamp_format (datetime e) d)
  /\ (forall d, timestamp_format (datetime e) d ->
                count_hour c e = incr Z.eqb (Strptime.hour d) c
                /\ 0 <= Strptime.hour d <= 23)
  /\ ((forall d, ~ timestamp_format (datetime e) d) ->
      Strptime.strptime (datetime e) = None /\ count_hour c e = c).
Proof.
  intros e c; split; [|split].
  - intros d; apply StrptimeFacts.strptime_iff.
  - intros d Hf; unfold count_hour.
    rewrite (proj2 (StrptimeFacts.strptime_iff _ _) Hf); split; auto.
    destruct Hf as (mo & da & y & ws & h & mi & se & _ & _ & _ & _ & _
                    & (_ & _ & Hh) & _ & _ & -> & _); exact Hh.
  - intros Hn; unfold count_hour.
    destruct (Strptime.strptime (datetime e)) as [d|] eqn:E; auto.
    exfalso; apply (Hn d), StrptimeFacts.strptime_iff, E.
Qed.

Lemma timestamp_parse_witness :
  count_hour []
    {| path := []; datetime := lit "3/ 7/2021  9:05:59"; browser := [];
       status := []; size := [] |}
  = [(9, 1)].
Proof.
  refine (proj1 (proj1 (proj2 (timestamp_parse
            {| path := []; datetime := lit "3/ 7/2021  9:05:59";
               browser := []; status := []; size := [] |} []))
            {| Strptime.year := 2021; Strptime.month := 3;
               Strptime.day := 7; Strptime.hour := 9;
               Strptime.minute := 5; Strptime.second := 59 |} _)).
  exists (lit "3"), (lit " 7"), (lit "2021"), (lit "  "), (lit "9"),
    (lit "05"), (lit "59").
  split; [reflexivity|].
  split; [now apply StrptimeFacts.numeral_check|].
  split; [right; exists "7"%char; repeat split; discriminate|].
  split; [split; [reflexivity|repeat constructor]|].
  split; [split; [discriminate|repeat constructor]|].
  split; [now apply StrptimeFacts.numeral_check|].
  split; [now apply StrptimeFacts.numeral_check|].
  split; [now apply StrptimeFacts.numeral_check|].
  split; reflexivity.
Defined.

(** C8, as the claim states it, fails: a month of one digit parses, and
    the record is counted in its hour. *)
Lemma one_digit_month_counterexample :
  let e := {| path := []; datetime := lit "1/01/2020 10:15:00";
              browser := []; status := []; size := [] |} in
  two_digit_month (datetime e) = false
  /\ Strptime.strptime (datetime e)
     = Some {| Strptime.year := 2020; Strptime.month := 1;
               Strptime.day := 1; Strptime.hour := 10;
               Strptime.minute := 15; Strptime.second := 0 |}
  /\ analyze_hits_by_hour [e] = [(10, 1)].
Proof. repeat split. Qed.

(* ------------------------------------------------------------------ *)
(** ** The examples of the specification *)

Section Examples.

Let entry (p ts ua : string) : log_entry :=
  {| path := lit p; datetime := lit ts; browser := lit ua;
     status := lit "200"; size := lit "1" |}.

Example chrome_before_safari :
  agent_bucket (lit "Mozilla/5.0 Chrome/100 Safari/537") = "Chrome"%string.
Proof. reflexivity. Qed.

Example safari_alone :
  agent_bucket (lit "Mozilla/5.0 Safari/537") = "Safari"%string.
Proof. reflexivity. Qed.

Example msie_is_explorer :
  agent_bucket (lit "Mozilla/4.0 (compatible; MSIE 9.0)")
  = "Internet Explorer"%string.
Proof. reflexivity. Qed.

Example unknown_is_other :
  agent_bucket [] = "Other"%string
  /\ agent_bucket (lit "CustomBot/1.0") = "Other"%string.
Proof. split; reflexivity. Qed.

Example image_paths :
  is_image (entry "foo.JPG" "" "") = true
  /\ is_image (entry "foo.jpgx" "" "") = false
  /\ is_image (entry "foo.jpg?x=1" "" "") = false.
Proof. repeat split. Qed.

Example hours_example :
  analyze_hits_by_hour
    [ entry "/" "01/01/2020 10:15:00" ""; entry "/" "01/01/2020 11:00:00" "";
      entry "/" "01/01/2020 10:15:00" ""; entry "/" "01/01/2020 10:15:00" "" ]
  = [(10, 3); (11, 1)].
Proof. reflexivity. Qed.

(** Values of the float operations: a third, its hundredfold, a tie that
    goes to the even significand, and a quotient below the subnormal
    range. *)
Example float_values :
  Float.true_div 1 3 = 6004799503160661 # 18014398509481984
  /\ Float.mul (Float.true_div 1 3) (Float.of_int 100)
     = 2345624805922133 # 70368744177664
  /\ Float.true_div 7 100 = 1261007895663739 # 18014398509481984
  /\ Float.of_int 100 = inject_Z 100
  /\ Float.true_div (2 ^ 53 + 1) (2 ^ 54) = 1 # 2
  /\ Float.true_div (2 ^ 53 + 3) (2 ^ 54)
     = 2251799813685249 # 4503599627370496
  /\ Float.true_div 1 (2 ^ 1075) = 0%Q.
Proof. repeat split; vm_compute; reflexivity. Qed.

Example four_fields_dropped :
  process_csv (lit "a,b,c,d") = Ok [].
Proof. reflexivity. Qed.

Example empty_input :
  process_csv [] = Ok []
  /\ find_image_requests [] = (0, 0%Q)
  /\ find_most_popular_browser [] = ("None"%string, 0)
  /\ analyze_hits_by_hour [] = [].
Proof. repeat split. Qed.

End Examples.

(* ------------------------------------------------------------------ *)
(** * Further properties of the program *)

(** ** The parser *)

Section Trimmed.

Lemma lstrip_head : forall s c t, lstrip s = c :: t -> is_space c = false.
Proof.
  induction s as [|a s IH]; simpl; [discriminate|]; intros c t.
  destruct (is_space a) eqn:E; [apply IH|].
  intros H; injection H as <- _; exact E.
Qed.

Lemma lstrip_suffix : forall s, exists ws, s = ws ++ lstrip s.
Proof.
  induction s as [|a s [ws IH]]; simpl; [now exists []|].
  destruct (is_space a); [|now exists []].
  exists (a :: ws); simpl; now rewrite <- IH.
Qed.

Lemma rstrip_prefix : forall s, exists ws, s = rstrip s ++ ws.
Proof.
  intros s; unfold rstrip.
  destruct (lstrip_suffix (rev s)) as [ws H].
  exists (rev ws).
  rewrite <- rev_app_distr, <- H; now rewrite rev_involutive.
Qed.

Lemma rstrip_last : forall s c t, rstrip s = t ++ [c] -> is_space c = false.
Proof.
  unfold rstrip; intros s c t H.
  apply (f_equal (@rev ascii)) in H.
  rewrite rev_involutive, rev_app_distr in H; simpl in H.
  now apply lstrip_head in H.
Qed.

Lemma strip_no_outer_space : forall s, no_outer_space (strip s).
Proof.
  intros s; unfold strip; split; intros c t H.
  - destruct (rstrip_prefix (lstrip s)) as [ws Hp].
    rewrite H in Hp; simpl in Hp.
    now apply lstrip_head in Hp.
  - now apply rstrip_last in H.
Qed.

Lemma add_row_trimmed : forall rows acc,
  Forall trimmed_entry acc ->
  Forall trimmed_entry (fold_left add_row rows acc).
Proof.
  induction rows as [|row rows IH]; intros acc Ha; simpl; auto.
  apply IH; unfold add_row.
  destruct (5 <=? List.length row)%nat; auto.
  apply Forall_app; split; auto.
  repeat constructor; simpl; apply strip_no_outer_space.
Qed.

End Trimmed.

(** Every field of every record that [process_csv] returns is trimmed: it
    neither begins nor ends with a white-space character. *)
Theorem records_trimmed : forall data recs,
  process_csv data = Ok recs -> Forall trimmed_entry recs.
Proof.
  intros data recs; unfold process_csv.
  destruct (Csv.reader_rows (splitlines data)) as [rows|]; simpl;
    [|discriminate].
  intros E; injection E as <-; apply add_row_trimmed; constructor.
Qed.

Lemma records_trimmed_witness :
  Forall trimmed_entry
    [ {| path := lit "p"; datetime := lit "q r"; browser := lit "s";
         status := lit "t"; size := lit "u" |} ].
Proof.
  apply (records_trimmed (lit "  p ,q r , s,t ,u  ,v")).
  vm_compute; reflexivity.
Defined.

Section RowCount.

Lemma rows_from_bound : forall lines r rows,
  Csv.rows_from r lines = Ok rows ->
  (List.length rows <= List.length lines + 1)%nat.
Proof.
  induction lines as [|line lines IH]; intros r rows; simpl.
  - destruct (_ || _); intros E; injection E as <-; simpl; lia.
  - destruct (Csv.feed_line r line) as [r1|]; simpl; [|discriminate].
    destruct (Csv.at_start r1).
    + destruct (Csv.rows_from Csv.parse_reset lines) as [rows'|] eqn:E;
        simpl; [|discriminate].
      intros E'; injection E' as <-; simpl.
      apply IH in E; lia.
    + intros E; apply IH in E; lia.
Qed.

Lemma reader_rows_bound : forall lines rows,
  Csv.reader_rows lines = Ok rows ->
  (List.length rows <= List.length lines)%nat.
Proof.
  unfold Csv.reader_rows.
  induction lines as [|line lines IH]; intros rows; simpl.
  - intros E; injection E as <-; simpl; lia.
  - destruct (Csv.feed_line Csv.parse_reset line) as [r1|]; simpl;
      [|discriminate].
    destruct (Csv.at_start r1).
    + destruct (Csv.rows_from Csv.parse_reset lines) as [rows'|] eqn:E;
        simpl; [|discriminate].
      intros E'; injection E' as <-; simpl.
      specialize (IH rows' eq_refl); lia.
    + intros E; apply rows_from_bound in E; lia.
Qed.

Lemma add_row_count : forall rows acc,
  (List.length (fold_left add_row rows acc)
   <= List.length acc + List.length rows)%nat.
Proof.
  induction rows as [|row rows IH]; intros acc; simpl; [lia|].
  specialize (IH (add_row acc row)).
  assert (List.length (add_row acc row) <= S (List.length acc))%nat.
  { unfold add_row; destruct (5 <=? List.length row)%nat; [|lia].
    rewrite length_app; simpl; lia. }
  lia.
Qed.

End RowCount.

(** [process_csv] never returns more records than the text has lines. *)
Theorem records_at_most_lines : forall data recs,
  process_csv data = Ok recs ->
  (List.length recs <= List.length (splitlines data))%nat.
Proof.
  intros data recs; unfold process_csv.
  destruct (Csv.reader_rows (splitlines data)) as [rows|] eqn:E; simpl;
    [|discriminate].
  intros E'; injection E' as <-.
  apply reader_rows_bound in E.
  pose proof (add_row_count rows []); simpl in *; lia.
Qed.

Lemma records_at_most_lines_witness :
  (List.length [ {| path := lit "a"; datetime := lit "b";
                    browser := lit "c"; status := lit "d";
                    size := lit "e" |} ]
   <= List.length
        (splitlines (lit "a,b,c,d,e" ++ [LF] ++ lit "x" ++ [LF] ++ lit "y")))%nat.
Proof.
  apply (records_at_most_lines
           (lit "a,b,c,d,e" ++ [LF] ++ lit "x" ++ [LF] ++ lit "y")).
  vm_compute; reflexivity.
Defined.

Section ParserErrors.

Lemma linebreak_newline : forall ch,
  is_linebreak ch = false -> Csv.is_newline ch = false.
Proof.
  intros ch H; unfold Csv.is_newline.
  destruct (Ascii.eqb_spec ch LF) as [->|]; [discriminate|].
  destruct (Ascii.eqb_spec ch CR) as [->|]; [discriminate|].
  reflexivity.
Qed.

Lemma add_char_outcome : forall r ch,
  (exists r', Csv.parse_add_char r ch = Ok r' /\ Csv.st r' = Csv.st r)
  \/ Csv.parse_add_char r ch = Raise field_limit_error.
Proof.
  intros r ch; unfold Csv.parse_add_char.
  destruct (_ <=? _)%N; [right; reflexivity|left].
  eexists; split; reflexivity.
Qed.

(** A character that is no line break keeps the reader out of the state
    that raises on text after a line break, and the only error is the
    field limit. *)
Lemma char_outcome : forall r c,
  not_eating r ->
  match c with Some ch => is_linebreak ch = false | None => True end ->
  (exists r', Csv.parse_process_char r c = Ok r' /\ not_eating r')
  \/ Csv.parse_process_char r c = Raise field_limit_error.
Proof.
  intros r c Hr Hc; unfold not_eating in *.
  unfold Csv.parse_process_char, Csv.in_start_field, Csv.end_row.
  destruct c as [ch|].
  - apply linebreak_newline in Hc; rewrite Hc.
    destruct (Csv.st r) eqn:Hst; try congruence;
      repeat match goal with
             | |- context [if ?b then _ else _] => destruct b
             end;
      try (left; eexists; split; [reflexivity|simpl; congruence]);
      match goal with
      | |- context [Csv.parse_add_char ?x ch] =>
          destruct (add_char_outcome x ch) as [(r' & -> & Hs)| ->];
          [left|right; reflexivity]
      end;
      simpl; eexists; split; try reflexivity; simpl;
      try (rewrite Hs; simpl); congruence.
  - destruct (Csv.st r) eqn:Hst; try congruence;
      left; eexists; split; try reflexivity; simpl; congruence.
Qed.

Lemma feed_outcome : forall line r,
  not_eating r -> one_line line ->
  (exists r', Csv.feed r line = Ok r' /\ not_eating r')
  \/ Csv.feed r line = Raise field_limit_error.
Proof.
  induction line as [|ch line IH]; intros r Hr Hl; simpl.
  - left; now exists r.
  - inversion Hl; subst.
    destruct (char_outcome r (Some ch) Hr) as [(r1 & -> & Hr1)| ->]; auto.
    simpl; now apply IH.
Qed.

Lemma feed_line_outcome : forall line r,
  not_eating r -> one_line line ->
  (exists r', Csv.feed_line r line = Ok r' /\ not_eating r')
  \/ Csv.feed_line r line = Raise field_limit_error.
Proof.
  intros line r Hr Hl; unfold Csv.feed_line.
  destruct (feed_outcome line r Hr Hl) as [(r1 & -> & Hr1)| ->]; auto.
  simpl; now apply char_outcome.
Qed.

Lemma rows_outcome : forall lines r,
  not_eating r -> Forall one_line lines ->
  (exists rows, Csv.rows_from r lines = Ok rows)
  \/ Csv.rows_from r lines = Raise field_limit_error.
Proof.
  induction lines as [|line lines IH]; intros r Hr Hl; simpl.
  - left; destruct (_ || _); eauto.
  - inversion Hl; subst.
    destruct (feed_line_outcome line r Hr) as [(r1 & -> & Hr1)| ->]; auto.
    simpl; destruct (Csv.at_start r1).
    + destruct (IH Csv.parse_reset) as [(rows & ->)| ->]; auto.
      * discriminate.
      * left; simpl; eauto.
    + now apply IH.
Qed.

End ParserErrors.

(** Over lines without line break the reader can only raise the
    field-limit error. *)
Lemma reader_raise : forall lines msg,
  Forall one_line lines ->
  Csv.reader_rows lines = Raise msg -> msg = field_limit_error.
Proof.
  intros lines msg Hl; unfold Csv.reader_rows.
  destruct (rows_outcome lines Csv.parse_reset) as [(rows & ->)| ->]; auto.
  - discriminate.
  - discriminate.
  - intros E; now injection E as <-.
Qed.

(** The only error [process_csv] raises is the field-limit error of the
    reader: the text after [splitlines] holds no line break that could
    make the reader raise its other error. *)
Theorem parser_only_error : forall (data : str) (msg : string),
  process_csv data = Raise msg -> msg = field_limit_error.
Proof.
  intros data msg; unfold process_csv.
  destruct (Csv.reader_rows (splitlines data)) as [rows|msg'] eqn:E;
    simpl; [discriminate|].
  intros H; injection H as <-.
  apply (reader_raise (splitlines data)); auto.
  apply splitlines_one_line.
Qed.

Lemma parser_only_error_witness :
  "field larger than field limit (131072)"%string = field_limit_error.
Proof.
  apply (parser_only_error (run_of "a"%char 131073)).
  apply (long_field_raises_from 131072), N.le_refl.
Defined.

Section Concat.

(** The lines of two texts joined by a line feed: the lines of the first,
    possibly one empty line, and the lines of the second. *)
Lemma splitlines_from_join : forall n a cur b,
  (List.length a <= n)%nat ->
  exists extra,
    (extra = [] \/ extra = [[]])
    /\ splitlines_from cur (a ++ LF :: b)
       = splitlines_from cur a ++ extra ++ splitlines b.
Proof.
  induction n as [|n IH]; intros a cur b Hn.
  - destruct a; [|simpl in Hn; lia]; simpl.
    change (is_linebreak LF) with true; cbv iota.
    assert (splitlines_from cur (LF :: b) = rev cur :: splitlines b) as E.
    { simpl; change (is_linebreak LF) with true; cbv iota.
      destruct b; [reflexivity|].
      change (Ascii.eqb LF CR) with false; reflexivity. }
    destruct cur as [|c cur].
    + exists [[]]; split; auto.
    + exists []; split; auto.
  - destruct a as [|c a].
    + apply (IH [] cur b); simpl; lia.
    + simpl in Hn; simpl.
      destruct (is_linebreak c) eqn:Hb.
      * destruct a as [|c' a]; simpl.
        -- destruct (Ascii.eqb_spec c CR) as [->|Hc]; simpl.
           ++ exists []; split; auto.
           ++ exists [[]]; split; auto.
              change (is_linebreak LF) with true; cbv iota.
              destruct b; [reflexivity|].
              change (Ascii.eqb LF CR) with false; reflexivity.
        -- simpl in Hn.
           destruct (Ascii.eqb c CR && Ascii.eqb c' LF).
           ++ destruct (IH a [] b) as (extra & He & ->); [lia|].
              exists extra; split; auto.
           ++ destruct (IH (c' :: a) [] b) as (extra & He & E);
                [simpl; lia|].
              simpl in E; rewrite E.
              exists extra; split; auto.
      * apply IH; lia.
Qed.

Lemma rows_from_closed_app : forall l1 l2,
  forallb closed_line l1 = true ->
  Csv.rows_from Csv.parse_reset (l1 ++ l2)
  = (rows <- Csv.rows_from Csv.parse_reset l2 ;;
     Ok (flat_map line_rows l1 ++ rows)).
Proof.
  induction l1 as [|line l1 IH]; intros l2 H; simpl.
  - destruct (Csv.rows_from Csv.parse_reset l2); reflexivity.
  - apply andb_true_iff in H as [Hl Hr].
    destruct (closed_line_rows line Hl) as (r & -> & Hs & ->); simpl.
    rewrite Hs, (IH l2 Hr).
    destruct (Csv.rows_from Csv.parse_reset l2); reflexivity.
Qed.

End Concat.

Lemma parser_join_records : forall (a b : str) (recs : list log_entry),
  forallb closed_line (splitlines a) = true ->
  process_csv a = Ok recs ->
  process_csv (a ++ LF :: b)
  = (more <- process_csv b ;; Ok (recs ++ more)).
Proof.
  intros a b recs Ha Hrecs; unfold process_csv in *.
  destruct (splitlines_from_join (List.length a) a [] b (le_n _))
    as (extra & He & Hs).
  fold (splitlines (a ++ LF :: b)) in Hs; fold (splitlines a) in Hs.
  rewrite Hs; unfold Csv.reader_rows in *.
  rewrite rows_of_closed_lines in Hrecs; auto; simpl in Hrecs.
  injection Hrecs as <-.
  rewrite app_assoc, rows_from_closed_app.
  - destruct (Csv.rows_from Csv.parse_reset (splitlines b)) as [rows|];
      simpl; auto.
    rewrite !fold_add_row, !flat_map_app; simpl.
    destruct He as [-> | ->]; simpl; now rewrite ?app_nil_r.
  - rewrite forallb_app; apply andb_true_iff; split; [exact Ha|].
    destruct He as [-> | ->]; reflexivity.
Qed.

(** Joining two texts with a line feed joins their records, provided every
    line of the first text is closed: the second text is then parsed from
    a fresh reader, whatever it holds, and an error in it is the error of
    the whole. *)
Theorem parser_join : forall a b : str,
  forallb closed_line (splitlines a) = true ->
  process_csv (a ++ LF :: b)
  = (first <- process_csv a ;;
     more <- process_csv b ;; Ok (first ++ more)).
Proof.
  intros a b Ha.
  assert (exists recs, process_csv a = Ok recs) as [recs Hrecs].
  { unfold process_csv; rewrite rows_of_closed_lines; simpl; eauto. }
  rewrite Hrecs; simpl; now apply parser_join_records.
Qed.

Lemma parser_join_witness :
  process_csv (lit "a,b,c,d,e" ++ LF :: lit "v,w,x,y,z,0")
  = (first <- process_csv (lit "a,b,c,d,e") ;;
     more <- process_csv (lit "v,w,x,y,z,0") ;; Ok (first ++ more)).
Proof.
  apply (parser_join (lit "a,b,c,d,e")); vm_compute; reflexivity.
Defined.

(** ** The image classifier *)

Section ImageMore.

Lemma filter_all : forall (A : Type) (f : A -> bool) l,
  List.length (filter f l) = List.length l <-> Forall (fun x => f x = true) l.
Proof.
  induction l as [|x l IH]; simpl; [split; auto|].
  pose proof (filter_length_le f l) as Hle.
  destruct (f x) eqn:E; simpl; split; intros H.
  - constructor; auto; apply IH; lia.
  - inversion H; subst; f_equal; now apply IH.
  - lia.
  - inversion H; congruence.
Qed.

Lemma filter_none : forall (A : Type) (f : A -> bool) l,
  List.length (filter f l) = 0%nat <-> Forall (fun x => f x = false) l.
Proof.
  induction l as [|x l IH]; simpl; [split; auto|].
  destruct (f x) eqn:E; simpl; split; intros H.
  - discriminate.
  - inversion H; congruence.
  - constructor; auto; now apply IH.
  - inversion H; subst; now apply IH.
Qed.

Lemma filter_length_perm : forall (A : Type) (f : A -> bool) a b,
  Permutation a b -> List.length (filter f a) = List.length (filter f b).
Proof.
  intros A f a b Hp; induction Hp; simpl; auto.
  - destruct (f x); simpl; auto.
  - destruct (f x), (f y); simpl; auto.
  - congruence.
Qed.

End ImageMore.

(** The image count of two lists put together is the sum of their image
    counts, and neither the count nor the percentage depends on the order
    of the records. *)
Theorem image_count_compose : forall a b : list log_entry,
  fst (find_image_requests (a ++ b))
  = fst (find_image_requests a) + fst (find_image_requests b)
  /\ (Permutation a b -> find_image_requests a = find_image_requests b).
Proof.
  intros a b; split.
  - rewrite !image_count_filter, filter_app, length_app; lia.
  - intros Hp; unfold find_image_requests.
    rewrite !count_image_fold.
    rewrite (Permutation_length Hp).
    now rewrite (filter_length_perm _ is_image a b Hp).
Qed.

(** For a non-empty list of at most 2^53 records the float percentage is
    100 exactly when every record is an image request, and 0 exactly when
    none is. *)
Theorem image_share_extremes : forall data : list log_entry,
  data <> [] -> Z.of_nat (List.length data) <= 2 ^ 53 ->
  ((snd (find_image_requests data) == inject_Z 100)%Q
   <-> Forall (fun e => is_image e = true) data)
  /\ ((snd (find_image_requests data) == 0)%Q
      <-> Forall (fun e => is_image e = false) data).
Proof.
  intros data Hne Hbig.
  assert (0 < Z.of_nat (List.length data)) as Ht
      by (destruct data; [congruence|simpl; lia]).
  pose proof (filter_length_le is_image data) as Hle.
  unfold find_image_requests; cbv zeta; cbn [snd].
  rewrite (proj2 (Z.ltb_lt _ _) Ht), count_image_fold; simpl Z.add.
  split.
  - rewrite share_full; [|lia|lia]; rewrite <- filter_all; lia.
  - rewrite share_none; [|lia|lia]; rewrite <- filter_none; lia.
Qed.

Lemma image_share_extremes_witness :
  (snd (find_image_requests
          [ {| path := lit "a.gif"; datetime := []; browser := [];
               status := []; size := [] |} ]) == inject_Z 100)%Q
  <-> Forall (fun e => is_image e = true)
        [ {| path := lit "a.gif"; datetime := []; browser := [];
             status := []; size := [] |} ].
Proof.
  apply (image_share_extremes
           [ {| path := lit "a.gif"; datetime := []; browser := [];
                status := []; size := [] |} ]).
  - discriminate.
  - vm_compute; discriminate.
Defined.

Section LetterCase.

Lemma tolower_digit : forall d x,
  is_digit d = true -> tolower x = tolower d -> x = d.
Proof.
  intros d x Hd; apply StrptimeFacts.digit_cases in Hd; simpl in Hd.
  decompose [or] Hd; clear Hd; try contradiction; subst;
    destruct x as [[] [] [] [] [] [] [] []]; vm_compute;
    intros H; try reflexivity; discriminate.
Qed.

Lemma tolower_line_feed : forall x, tolower x = tolower LF -> x = LF.
Proof.
  intros x; destruct x as [[] [] [] [] [] [] [] []]; vm_compute;
    intros H; try reflexivity; discriminate.
Qed.

Lemma tolower_dot : forall x, tolower x = tolower "."%char -> x = "."%char.
Proof.
  intros x H; apply lit_dot_only; simpl; now apply Ascii.eqb_eq.
Qed.

Lemma same_text_sym : forall a b, same_text a b -> same_text b a.
Proof. unfold same_text; intros; congruence. Qed.

Lemma same_text_trans : forall a b c,
  same_text a b -> same_text b c -> same_text a c.
Proof. unfold same_text; intros; congruence. Qed.

Lemma has_token_same_text : forall tok a b,
  same_text a b -> has_token tok a -> has_token tok b.
Proof.
  intros tok a b Hab (pre & w & d & post & -> & Hw & Hd).
  unfold same_text in Hab; rewrite !map_app in Hab; simpl in Hab.
  symmetry in Hab.
  apply map_eq_app in Hab as (pre' & r1 & -> & Hpre & Hab).
  apply map_eq_app in Hab as (w' & r2 & -> & Hw' & Hab).
  apply map_eq_cons in Hab as (d' & post' & -> & Hd' & Hpost).
  apply tolower_digit in Hd'; auto; subst d'.
  exists pre', w', d, post'; repeat split; auto.
  eapply same_text_trans; eauto.
Qed.

Lemma has_token_case : forall tok a b,
  same_text a b -> (has_token tok a <-> has_token tok b).
Proof.
  intros tok a b H; split; apply has_token_same_text; auto.
  now apply same_text_sym.
Qed.

Lemma is_image_same_text : forall e1 e2,
  same_text (path e1) (path e2) -> is_image e1 = true -> is_image e2 = true.
Proof.
  intros e1 e2 Hab H.
  apply (proj1 (is_image_iff _)) in H
    as (stem & ext & tail & Hp & Hstem & Hext & Htail).
  apply is_image_iff.
  unfold same_text in Hab; rewrite Hp, !map_app in Hab; simpl in Hab.
  rewrite map_app in Hab; symmetry in Hab.
  apply map_eq_app in Hab as (stem' & r1 & Hp' & Hs & Hab).
  apply map_eq_cons in Hab as (dot & r2 & -> & Hdot & Hab).
  apply map_eq_app in Hab as (ext' & tail' & -> & He & Ht).
  apply tolower_dot in Hdot; subst dot.
  exists stem', ext', tail'; split; [exact Hp'|]; split; [|split].
  - intros Hin; apply Hstem.
    apply (in_map tolower) in Hin; rewrite Hs in Hin.
    apply in_map_iff in Hin as (y & Hy & Hin).
    apply tolower_line_feed in Hy; now subst y.
  - destruct Hext as [H|[H|H]]; [left|right; left|right; right];
      (eapply same_text_trans; [exact He|exact H]).
  - destruct Htail as [-> | ->].
    + left; destruct tail'; [auto|discriminate].
    + right; destruct tail' as [|x [|]]; try discriminate.
      injection Ht as Hx; apply tolower_line_feed in Hx; now subst x.
Qed.

End LetterCase.

(** Two user agents that differ only in the case of their letters fall in
    the same bucket. *)
Theorem agent_bucket_case : forall a b : str,
  same_text a b -> agent_bucket a = agent_bucket b.
Proof.
  intros a b H.
  assert (forall tok, found (Cat (word (lit tok)) (Plus CDigit)) a
                      = found (Cat (word (lit tok)) (Plus CDigit)) b) as Ht.
  { intros tok; apply eq_true_iff_eq; rewrite !found_token.
    now apply has_token_case. }
  unfold agent_bucket, firefox_regex, chrome_regex, safari_regex, ie_regex.
  now rewrite !found_alt, !Ht.
Qed.

Lemma agent_bucket_case_witness :
  agent_bucket (lit "MOZILLA FIREFOX/12")
  = agent_bucket (lit "mozilla firefox/12").
Proof. apply agent_bucket_case; reflexivity. Defined.

(** Two records whose paths differ only in the case of their letters are
    both image requests or both not. *)
Theorem is_image_case : forall e1 e2 : log_entry,
  same_text (path e1) (path e2) -> is_image e1 = is_image e2.
Proof.
  intros e1 e2 H; apply eq_true_iff_eq; split;
    apply is_image_same_text; auto.
  unfold same_text in *; congruence.
Qed.

Lemma is_image_case_witness :
  is_image {| path := lit "Logo.PnG"; datetime := []; browser := [];
              status := []; size := [] |}
  = is_image {| path := lit "logo.png"; datetime := []; browser := [];
                status := []; size := [] |}.
Proof.
  apply (is_image_case
           {| path := lit "Logo.PnG"; datetime := []; browser := [];
              status := []; size := [] |}
           {| path := lit "logo.png"; datetime := []; browser := [];
              status := []; size := [] |}).
  reflexivity.
Defined.

(** ** The tallies *)

Section TallyMore.

Lemma total_bound : forall (K : Type) (c : Counter K) m,
  (forall y, In y c -> snd y <= m) ->
  total c <= Z.of_nat (List.length c) * m.
Proof.
  unfold total; induction c as [|x c IH]; intros m H; simpl fold_right;
    simpl List.length; [lia|].
  specialize (IH m (fun y Hy => H y (or_intror Hy))).
  specialize (H x (or_introl eq_refl)); lia.
Qed.

Lemma total_insert_desc : forall (K : Type) (x : K * Z) l,
  total (insert_desc x l) = snd x + total l.
Proof.
  unfold total; induction l as [|y l IH]; simpl; auto.
  destruct (snd x <? snd y); simpl; auto; rewrite IH; lia.
Qed.

Lemma total_sorted_desc : forall (K : Type) (l : list (K * Z)),
  total (sorted_desc l) = total l.
Proof.
  induction l as [|x l IH]; simpl; auto.
  rewrite total_insert_desc; unfold total in *; simpl; now rewrite IH.
Qed.

Lemma occurrences_perm : forall (K : Type) (eqb : K -> K -> bool) k a b,
  Permutation a b -> occurrences eqb k a = occurrences eqb k b.
Proof.
  intros K eqb k a b Hp; induction Hp; simpl; auto; try lia.
Qed.

Lemma tally_buckets_length : forall data,
  (List.length (browser_tally data) <= 5)%nat.
Proof.
  intros data.
  rewrite <- (length_map fst).
  change 5%nat with (List.length buckets).
  apply NoDup_incl_length.
  - rewrite browser_tally_seq.
    apply (keys_tally_NoDup String.eqb String.eqb_eq).
  - intros l; apply tally_keys_buckets.
Qed.

(** The count of the most popular browser is the largest number of hits
    of a bucket, and some bucket has it. *)
Lemma most_popular_is_max : forall data,
  data <> [] ->
  (forall l, occurrences String.eqb l (bucket_seq data)
             <= snd (find_most_popular_browser data))
  /\ occurrences String.eqb (fst (find_most_popular_browser data))
                 (bucket_seq data)
     = snd (find_most_popular_browser data).
Proof.
  intros data Hne.
  destruct (most_popular_entry data Hne) as (p & q & E & Hp & Hq).
  destruct (find_most_popular_browser data) as [b n]; simpl in *.
  assert (In (b, n) (tally String.eqb (bucket_seq data))) as Hin.
  { rewrite <- browser_tally_seq, E, in_app_iff; simpl; auto. }
  destruct (tally_entry String.eqb String.eqb_eq _ _ _ Hin) as [Hn Hpos].
  split; auto.
  intros l.
  destruct (Z.le_gt_cases (occurrences String.eqb l (bucket_seq data)) 0)
    as [H0|H1]; [lia|].
  assert (In l (bucket_seq data)) as Hl.
  { apply (occurrences_pos String.eqb String.eqb_eq); lia. }
  apply (tally_entry_of_key String.eqb String.eqb_eq) in Hl.
  rewrite <- browser_tally_seq, E in Hl.
  apply in_app_iff in Hl as [Hl|[Hl|Hl]].
  - specialize (Hp _ Hl); simpl in Hp; lia.
  - injection Hl as _ <-; lia.
  - specialize (Hq _ Hl); simpl in Hq; lia.
Qed.

Lemma strptime_hour_range : forall ts d,
  Strptime.strptime ts = Some d -> 0 <= Strptime.hour d <= 23.
Proof.
  intros ts d; unfold Strptime.strptime.
  destruct (re_match Strptime.format_regex ts) as [found|]; [|discriminate].
  destruct (m_rest found); [|discriminate].
  destruct (Strptime.valid_date _ _ _ && Strptime.valid_time _ _ _) eqn:E;
    [|discriminate].
  intros H; injection H as <-; simpl.
  apply andb_true_iff in E as [_ E]; unfold Strptime.valid_time in E.
  rewrite !andb_true_iff, !Z.leb_le in E; lia.
Qed.

Lemma hour_seq_range : forall data h,
  In h (hour_seq data) -> 0 <= h <= 23.
Proof.
  intros data h; unfold hour_seq; rewrite in_flat_map.
  intros (e & _ & He).
  destruct (Strptime.strptime (datetime e)) as [d|] eqn:E; [|contradiction].
  destruct He as [<-|[]]; eapply strptime_hour_range; eauto.
Qed.

Lemma hour_seq_length : forall data,
  List.length (hour_seq data) = List.length (filter parses data).
Proof.
  induction data as [|e data IH]; simpl; auto.
  unfold parses at 1.
  destruct (Strptime.strptime (datetime e)); simpl; auto.
Qed.

Lemma day_hours_all : forall h, 0 <= h <= 23 -> In h day_hours.
Proof.
  intros h Hh; unfold day_hours; apply in_map_iff.
  exists (Z.to_nat h); split; [lia|].
  apply in_seq; lia.
Qed.

End TallyMore.

(** The most popular browser has at least a fifth of the records: there
    are only five buckets. *)
Theorem most_popular_fifth : forall data : list log_entry,
  Z.of_nat (List.length data) <= 5 * snd (find_most_popular_browser data).
Proof.
  intros data; destruct data as [|e data]; [simpl; lia|].
  assert (e :: data <> []) as Hne by discriminate.
  destruct (most_popular_entry _ Hne) as (p & q & E & Hp & Hq).
  pose proof (tally_buckets_length (e :: data)) as Hlen.
  pose proof (total_tally String.eqb (bucket_seq (e :: data))) as Ht.
  rewrite <- browser_tally_seq, bucket_seq_length in Ht.
  rewrite <- Ht.
  set (m := snd (find_most_popular_browser (e :: data))) in *.
  assert (forall y, In y (browser_tally (e :: data)) -> snd y <= m) as Hm.
  { intros y Hy; rewrite E in Hy.
    apply in_app_iff in Hy as [Hy|[<-|Hy]];
      [specialize (Hp _ Hy)| |specialize (Hq _ Hy)]; lia. }
  pose proof (total_bound _ _ _ Hm) as Hb.
  assert (0 <= m) as Hm0.
  { destruct (most_popular_is_max _ Hne) as [_ Hocc].
    fold m in Hocc; rewrite <- Hocc.
    apply occurrences_nonneg. }
  nia.
Qed.

(** The count of the most popular browser does not depend on the order of
    the records. *)
Theorem most_popular_count_perm : forall a b : list log_entry,
  Permutation a b ->
  snd (find_most_popular_browser a) = snd (find_most_popular_browser b).
Proof.
  intros a b Hp.
  destruct a as [|x a].
  { apply Permutation_nil in Hp; now subst b. }
  destruct b as [|y b].
  { apply Permutation_sym, Permutation_nil in Hp; discriminate. }
  assert (Permutation (bucket_seq (x :: a)) (bucket_seq (y :: b))) as Hs
      by (unfold bucket_seq; now apply Permutation_map).
  destruct (most_popular_is_max (x :: a)) as [Ha1 Ha2]; [discriminate|].
  destruct (most_popular_is_max (y :: b)) as [Hb1 Hb2]; [discriminate|].
  specialize (Ha1 (fst (find_most_popular_browser (y :: b)))).
  specialize (Hb1 (fst (find_most_popular_browser (x :: a)))).
  rewrite (occurrences_perm _ String.eqb _ _ _ Hs) in Ha1.
  rewrite (occurrences_perm _ String.eqb _ _ _ Hs) in Ha2.
  lia.
Qed.

Lemma most_popular_count_perm_witness :
  snd (find_most_popular_browser
         [ {| path := []; datetime := []; browser := lit "Safari/5";
              status := []; size := [] |};
           {| path := []; datetime := []; browser := lit "Chrome/9";
              status := []; size := [] |} ])
  = snd (find_most_popular_browser
           [ {| path := []; datetime := []; browser := lit "Chrome/9";
                status := []; size := [] |};
             {| path := []; datetime := []; browser := lit "Safari/5";
                status := []; size := [] |} ]).
Proof.
  apply most_popular_count_perm, perm_swap.
Defined.

Lemma hour_keys_range : forall data h,
  In h (map fst (analyze_hits_by_hour data)) -> 0 <= h <= 23.
Proof.
  intros data h Hh.
  destruct (proj1 (in_map_iff _ _ _) Hh) as ([h' c] & <- & Hin).
  unfold analyze_hits_by_hour in Hin.
  apply (proj1 (In_sorted_desc _ _)) in Hin.
  rewrite hour_tally_seq in Hin.
  apply (hour_seq_range data), (keys_tally_In Z.eqb Z.eqb_eq).
  unfold keys; apply in_map_iff; now exists (h', c).
Qed.

Lemma hour_keys_NoDup : forall data,
  NoDup (map fst (analyze_hits_by_hour data)).
Proof.
  intros data; unfold analyze_hits_by_hour; rewrite hour_tally_seq.
  apply (Permutation_NoDup (l := keys (tally Z.eqb (hour_seq data)))).
  - unfold keys; apply Permutation_map, Permutation_sym.
    apply sorted_desc_perm.
  - apply keys_tally_NoDup, Z.eqb_eq.
Qed.

(** Every hour of the report lies between 0 and 23, so the report has at
    most 24 rows. *)
Theorem hours_in_day : forall data : list log_entry,
  Forall (fun row => 0 <= fst row <= 23) (analyze_hits_by_hour data)
  /\ (List.length (analyze_hits_by_hour data) <= 24)%nat.
Proof.
  intros data; split.
  - apply Forall_forall; intros row Hrow.
    apply (hour_keys_range data); now apply in_map.
  - rewrite <- (length_map fst).
    change 24%nat with (List.length day_hours).
    apply NoDup_incl_length; [apply hour_keys_NoDup|].
    intros h Hh; eapply day_hours_all, hour_keys_range, Hh.
Qed.

(** The counts of the hourly report add up to the number of records whose
    timestamp parses, which is at most the number of records. *)
Theorem hours_total : forall data : list log_entry,
  total (analyze_hits_by_hour data)
  = Z.of_nat (List.length (filter parses data))
  /\ total (analyze_hits_by_hour data) <= Z.of_nat (List.length data).
Proof.
  intros data.
  assert (total (analyze_hits_by_hour data)
          = Z.of_nat (List.length (filter parses data))) as H.
  { unfold analyze_hits_by_hour.
    rewrite total_sorted_desc, hour_tally_seq, total_tally.
    now rewrite hour_seq_length. }
  split; auto; rewrite H.
  pose proof (filter_length_le parses data); lia.
Qed.

(** ** The report driver *)

Section MainFacts.

Variable download_data : str -> result str.
Variable format_1f : Q -> str.

Lemma pad2_hour : forall h,
  0 <= h <= 23 ->
  exists d1 d2, pad2 h = [d1; d2] /\ is_digit d1 = true
                /\ is_digit d2 = true
                /\ 10 * digit_val d1 + digit_val d2 = h.
Proof.
  intros h Hh; apply day_hours_all in Hh.
  unfold day_hours in Hh; simpl in Hh.
  decompose [or] Hh; clear Hh; try contradiction; subst h;
    match goal with
    | |- exists d1 d2, pad2 ?h = _ /\ _ =>
        let v := eval vm_compute in (pad2 h) in
        match v with
        | [?a; ?b] => exists a, b
        end
    end; repeat split; reflexivity.
Qed.

(** When the download or the parser raises, [main] prints the error line
    after the progress lines and no figure; the parser can only raise the
    field-limit error. *)
Theorem main_on_error : forall url : str,
  (forall msg, download_data url = Raise msg ->
               main download_data format_1f url
               = [ lit "Downloading data from " ++ url ++ lit "...";
                   error_line msg ])
  /\ (forall csv_data msg,
        download_data url = Ok csv_data ->
        process_csv csv_data = Raise msg ->
        main download_data format_1f url
        = [ lit "Downloading data from " ++ url ++ lit "...";
            lit "Processing CSV data...";
            error_line field_limit_error ]).
Proof.
  intros url; split.
  - intros msg H; unfold main; now rewrite H.
  - intros csv_data msg Hd Hp; unfold main; rewrite Hd, Hp.
    replace msg with field_limit_error; [reflexivity|].
    unfold process_csv in Hp.
    destruct (Csv.reader_rows (splitlines csv_data)) as [rows|msg'] eqn:E;
      simpl in Hp; [discriminate|].
    injection Hp as <-; symmetry.
    apply (reader_raise (splitlines csv_data)); auto.
    apply splitlines_one_line.
Qed.

(** When the text is fetched and parsed, [main] prints two progress lines,
    six lines of figures and one row per hour of the report: at most 32
    lines, and every hour row shows its hour with exactly two digits. *)
Theorem main_report : forall (url csv_data : str) (recs : list log_entry),
  download_data url = Ok csv_data ->
  process_csv csv_data = Ok recs ->
  exists figures rows,
    main download_data format_1f url
    = (lit "Downloading data from " ++ url ++ lit "...")
      :: lit "Processing CSV data..." :: figures ++ rows
    /\ List.length figures = 6%nat
    /\ List.length rows = List.length (analyze_hits_by_hour recs)
    /\ (List.length (main download_data format_1f url) <= 32)%nat
    /\ Forall two_digit_hour_line rows.
Proof.
  intros url csv_data recs Hd Hp; unfold main; rewrite Hd, Hp.
  destruct (find_image_requests recs) as [ic ip].
  destruct (find_most_popular_browser recs) as [b n].
  assert (Forall (fun row => 0 <= fst row <= 23)
            (analyze_hits_by_hour recs)) as Hr.
  { apply Forall_forall; intros row Hrow.
    apply (hour_keys_range recs); now apply in_map. }
  assert (List.length (analyze_hits_by_hour recs) <= 24)%nat as Hl.
  { rewrite <- (length_map fst).
    change 24%nat with (List.length day_hours).
    apply NoDup_incl_length; [apply hour_keys_NoDup|].
    intros h Hh; eapply day_hours_all, hour_keys_range, Hh. }
  eexists; exists (map hour_line (analyze_hits_by_hour recs)).
  split; [reflexivity|]; split; [reflexivity|].
  split; [apply length_map|]; split.
  - simpl List.length; rewrite length_map; lia.
  - apply Forall_map; eapply Forall_impl; [|exact Hr].
    intros [h c] Hh; simpl in Hh.
    destruct (pad2_hour h Hh) as (d1 & d2 & E & H1 & H2 & Hv).
    exists d1, d2, (str_of_int c ++ lit " hits").
    unfold hour_line; simpl fst; simpl snd; rewrite E.
    repeat split; auto; lia.
Qed.

End MainFacts.

Lemma main_report_witness :
  exists figures rows,
    main (fun _ => Ok (lit "/a.png,01/02/2020 3:04:05,Firefox/1,200,9"))
         (fun _ => lit "100.0") (lit "http://h/log")
    = (lit "Downloading data from " ++ lit "http://h/log" ++ lit "...")
      :: lit "Processing CSV data..." :: figures ++ rows
    /\ List.length figures = 6%nat
    /\ List.length rows
       = List.length
           (analyze_hits_by_hour
              [ {| path := lit "/a.png"; datetime := lit "01/02/2020 3:04:05";
                   browser := lit "Firefox/1"; status := lit "200";
                   size := lit "9" |} ])
    /\ (List.length
          (main (fun _ => Ok (lit "/a.png,01/02/2020 3:04:05,Firefox/1,200,9"))
                (fun _ => lit "100.0") (lit "http://h/log")) <= 32)%nat
    /\ Forall two_digit_hour_line rows.
Proof.
  apply (main_report
           (fun _ => Ok (lit "/a.png,01/02/2020 3:04:05,Firefox/1,200,9"))
           (fun _ => lit "100.0") (lit "http://h/log")
           (lit "/a.png,01/02/2020 3:04:05,Firefox/1,200,9")).
  - reflexivity.
  - vm_compute; reflexivity.
Defined.

